(** * Feature usefulness and interpretability metrics (CICIDS2017)

    A shallow embedding of
    [dataset_engineering/notebooks/feature_interpretability_CICIDS.py].

    The script is one linear pass: build the list of catalog features that
    the table has, clean and sample the rows, compute five per-feature
    metrics, merge them on the feature name, normalise each metric by its
    column maximum, blend the normalised metrics into two scores, attach the
    catalog group of each feature and sort by the combined score.

    Numbers.  A cell of the input table holds a number, a missing value
    or an infinity ([cell]).  A float the script computes is modelled as an
    exact rational or the not-a-number value ([float]): rounding and
    overflow are outside this model.  Comparisons with NaN are false and
    arithmetic propagates NaN, as in IEEE 754.  Where rounding decides
    which branch the script takes, at the test [pooled_std > 0] of line 104,
    the computation is given a second time in double precision
    ([Module IEEE]).

    Library calls.  scikit-learn, SciPy, NumPy's generator, pandas' sort
    and the square root are not part of the script.  They are the fields of
    the class [Library]; what the proofs need from them is stated as a
    contract next to the theorem that uses it.  [Module Ref] gives closed,
    executable stand-ins for them, on which every definition evaluates, and
    [Module Ideal] a generator whose draws are uniform. *)

From Stdlib Require Import QArith Qabs Lqa Lia ZArith Arith Bool.
From Stdlib Require Import String List Permutation Sorted.
From Stdlib Require SpecFloat.
Import ListNotations.

Local Open Scope string_scope.
Local Open Scope list_scope.
Local Open Scope Q_scope.

#[local] Set Warnings "-abstract-large-number".

(** ** Floats *)

Inductive float := NaN | Fin (q : Q).

Module Float.

Definition lift1 (f : Q -> Q) (a : float) : float :=
  match a with Fin x => Fin (f x) | NaN => NaN end.

Definition lift2 (f : Q -> Q -> Q) (a b : float) : float :=
  match a, b with Fin x, Fin y => Fin (f x y) | _, _ => NaN end.

Definition add := lift2 Qplus.
Definition sub := lift2 Qminus.
Definition mul := lift2 Qmult.
Definition abs := lift1 Qabs.

(** [a / b].  A zero divisor gives NaN here; IEEE gives an infinity when
    the dividend is a non-zero number.  Every division of the script is
    either guarded by a test on the divisor or has a NaN dividend when the
    divisor is 0 (see [pooled_divisor_zero_nan]). *)
Definition div (a b : float) : float :=
  match a, b with
  | Fin x, Fin y => if Qeq_bool y 0 then NaN else Fin (x / y)
  | _, _ => NaN
  end.

(** [a ** 2] *)
Definition sq (a : float) : float := mul a a.

(** [a > 0], false on NaN. *)
Definition gt0 (a : float) : bool :=
  match a with Fin x => if Qlt_le_dec 0 x then true else false | NaN => false end.

(** [a == b] on floats, false when either side is NaN. *)
Definition eqb (a b : float) : bool :=
  match a, b with Fin x, Fin y => Qeq_bool x y | _, _ => false end.

Definition of_nat (n : nat) : float := Fin (inject_Z (Z.of_nat n)).
Definition of_Z (n : Z) : float := Fin (inject_Z n).

(** The value is a number in the closed interval from 0 to 1. *)
Definition in_unit (a : float) : Prop :=
  match a with Fin x => 0 <= x <= 1 | NaN => False end.

(** The value is a number and is not negative. *)
Definition nonneg (a : float) : Prop :=
  match a with Fin x => 0 <= x | NaN => False end.

(** Equality of floats up to the representation of the rational. *)
Definition equiv (a b : float) : Prop :=
  match a, b with
  | Fin x, Fin y => x == y
  | NaN, NaN => True
  | _, _ => False
  end.

Definition is_nan (a : float) : bool :=
  match a with NaN => true | Fin _ => false end.

(** [a <= b] between two numbers. *)
Definition le (a b : float) : Prop :=
  match a, b with Fin x, Fin y => x <= y | _, _ => False end.

(** The value is NaN or a number that is not negative. *)
Definition nan_or_nonneg (a : float) : Prop :=
  match a with NaN => True | Fin x => 0 <= x end.

End Float.

Declare Scope float_scope.
Delimit Scope float_scope with float.
Bind Scope float_scope with float.
Infix "+" := Float.add : float_scope.
Infix "-" := Float.sub : float_scope.
Infix "*" := Float.mul : float_scope.
Infix "/" := Float.div : float_scope.
Infix "==" := Float.equiv (at level 70, no associativity) : float_scope.

(** ** Cells of the input table

    What the table read from the CSV file holds in a cell: a number, a
    missing value (NaN), or one of the two infinities, which line 60
    replaces.  The values the script computes are floats; the infinities
    enter with the input only. *)

Inductive cell := Inf (negative : bool) | Val (v : float).

Coercion Val : float >-> cell.

Module Cell.

(** [c == q] for a number [q]: false on a missing value and on an
    infinity. *)
Definition eqb (c : cell) (q : Q) : bool :=
  match c with
  | Val v => Float.eqb v (Fin q)
  | Inf _ => false
  end.

Definition is_number (c : cell) : bool :=
  match c with
  | Val (Fin _) => true
  | _ => false
  end.

End Cell.

(** ** The feature catalog (lines 20-50)

    A Python dict keeps insertion order, and the script iterates over it
    ([.values()], [.items()]): an association list in definition order. *)

Definition catalog := list (string * list string).

Definition FEATURE_GROUPS : catalog :=
  [ ("Flow Duration",
      ["Flow Duration"; "Flow IAT Mean"; "Flow IAT Std"; "Flow IAT Max"; "Flow IAT Min"]);
    ("Forward Packets",
      ["Total Fwd Packets"; "Fwd Packet Length Max"; "Fwd Packet Length Min";
       "Fwd Packet Length Mean"; "Fwd Packet Length Std"]);
    ("Backward Packets",
      ["Total Backward Packets"; "Bwd Packet Length Max"; "Bwd Packet Length Min";
       "Bwd Packet Length Mean"; "Bwd Packet Length Std"]);
    ("Flow Rates",
      ["Flow Bytes/s"; "Flow Packets/s"; "Fwd Packets/s"; "Bwd Packets/s"]);
    ("Packet Timing",
      ["Fwd IAT Total"; "Fwd IAT Mean"; "Fwd IAT Std"; "Fwd IAT Max"; "Fwd IAT Min";
       "Bwd IAT Total"; "Bwd IAT Mean"; "Bwd IAT Std"; "Bwd IAT Max"; "Bwd IAT Min"]);
    ("TCP Flags",
      ["FIN Flag Count"; "SYN Flag Count"; "RST Flag Count"; "PSH Flag Count";
       "ACK Flag Count"; "URG Flag Count"; "CWE Flag Count"; "ECE Flag Count";
       "Fwd PSH Flags"; "Bwd PSH Flags"; "Fwd URG Flags"; "Bwd URG Flags"]);
    ("Header Info", ["Fwd Header Length"; "Bwd Header Length"]);
    ("Packet Size",
      ["Min Packet Length"; "Max Packet Length"; "Packet Length Mean";
       "Packet Length Std"; "Packet Length Variance"; "Average Packet Size"]);
    ("Bulk Transfer",
      ["Fwd Avg Bytes/Bulk"; "Fwd Avg Packets/Bulk"; "Fwd Avg Bulk Rate";
       "Bwd Avg Bytes/Bulk"; "Bwd Avg Packets/Bulk"; "Bwd Avg Bulk Rate"]);
    ("Subflow",
      ["Subflow Fwd Packets"; "Subflow Fwd Bytes"; "Subflow Bwd Packets";
       "Subflow Bwd Bytes"]);
    ("Window Size",
      ["Init_Win_bytes_forward"; "Init_Win_bytes_backward"; "act_data_pkt_fwd";
       "min_seg_size_forward"]);
    ("Active/Idle",
      ["Active Mean"; "Active Std"; "Active Max"; "Active Min";
       "Idle Mean"; "Idle Std"; "Idle Max"; "Idle Min"]);
    ("Ratios", ["Down/Up Ratio"]);
    ("Engineered - Traffic Volume", ["packets_total"; "bytes_total"; "avg_packet_size"]);
    ("Engineered - Asymmetry", ["packet_ratio"; "byte_ratio"; "is_asymmetric"]);
    ("Engineered - Connection State", ["connection_completed"; "connection_failed"]);
    ("Engineered - Network Quality", ["avg_jitter"; "high_jitter"]);
    ("Engineered - TCP", ["has_tcp_info"; "window_size_avg"]);
    ("Engineered - Scanning", ["diverse_ports"; "diverse_src_ports"; "repeated_connection"]);
    ("Engineered - Response", ["response_body_len"; "has_response"]) ].

(** [x in xs] on a list of strings. *)
Definition mem (x : string) (xs : list string) : bool :=
  existsb (String.eqb x) xs.

(** Lines 158-162, over any catalog: the loop over [.items()] returns at the
    first group whose list has the feature. *)
Fixpoint group_lookup (groups : catalog) (feature : string) : string :=
  match groups with
  | [] => "Unknown"
  | (group_name, features) :: rest =>
      if mem feature features then group_name else group_lookup rest feature
  end.

Definition get_feature_group (feature : string) : string :=
  group_lookup FEATURE_GROUPS feature.

(** Lines 52-54. *)
Definition all_numeric_features : list string :=
  flat_map snd FEATURE_GROUPS.

(** ** Tables

    A pandas DataFrame: the column names in order and the rows in index
    order.  [len(df)] is the number of rows. *)

Record Frame (A : Type) := { columns : list string; rows : list (list A) }.
Arguments columns {A} _.
Arguments rows {A} _.

(** Position of the first occurrence of [c] (the length when absent). *)
Fixpoint index_of (c : string) (cols : list string) : nat :=
  match cols with
  | [] => O
  | c' :: rest => if String.eqb c c' then O else S (index_of c rest)
  end.

(** [df[c]]: the column named [c].  A missing name raises KeyError in
    pandas; the script only selects names it has found in [df.columns], and
    ['is_attack'], which the input is required to have. *)
Definition column {A} (dflt : A) (df : Frame A) (c : string) : list A :=
  map (fun r => nth (index_of c (columns df)) r dflt) (rows df).

(** [df[names]]: the columns [names], in that order. *)
Definition select {A} (dflt : A) (df : Frame A) (names : list string) : Frame A :=
  {| columns := names;
     rows := map (fun r => map (fun c => nth (index_of c (columns df)) r dflt) names)
                 (rows df) |}.

(** [df.iloc[idx]] and [a[idx]] with an integer index array. *)
Definition take {A} (dflt : A) (xs : list A) (idx : list nat) : list A :=
  map (fun i => nth i xs dflt) idx.

Definition iloc {A} (df : Frame A) (idx : list nat) : Frame A :=
  {| columns := columns df; rows := take [] (rows df) idx |}.

(** [xs[mask]] with a boolean mask of the same length. *)
Fixpoint mask_select {A} (mask : list bool) (xs : list A) : list A :=
  match mask, xs with
  | b :: mask', x :: xs' =>
      if b then x :: mask_select mask' xs' else mask_select mask' xs'
  | _, _ => []
  end.

Definition mask_rows {A} (mask : list bool) (df : Frame A) : Frame A :=
  {| columns := columns df; rows := mask_select mask (rows df) |}.

(** ** pandas Series reductions, as documented

    [mean], [std] and [max] skip missing values; the feature matrix has
    none after line 60, so [mean] and [std] are taken over rationals.
    [mean] and [var] are the exact quotients.  pandas rounds after every
    operation, so its mean of [0.1, 0.1, 0.1] is 0.10000000000000002 and its
    variance is not 0; no statement below concludes from these two
    definitions that a variance is exactly 0, and [IEEE.mean], [IEEE.var]
    are the same reductions in double precision. *)

Module Series.

Definition sum (xs : list Q) : Q := fold_right Qplus 0 xs.

Definition count (xs : list Q) : Q := inject_Z (Z.of_nat (length xs)).

(** [s.mean()]: NaN on an empty series. *)
Definition mean (xs : list Q) : float :=
  match xs with
  | [] => NaN
  | _ => Fin (sum xs / count xs)
  end.

Definition sq_dev (m x : Q) : Q := (x - m) * (x - m).

(** [s.var()] with the default [ddof=1]: NaN for fewer than two values. *)
Definition var (xs : list Q) : float :=
  if (length xs <=? 1)%nat then NaN
  else
    let m := sum xs / count xs in
    Fin (sum (map (sq_dev m) xs) / (count xs - 1)).

(** The larger of the running maximum and the next value, skipping NaN. *)
Definition max_step (acc v : float) : float :=
  match v, acc with
  | NaN, _ => acc
  | Fin x, NaN => Fin x
  | Fin x, Fin m => if Qlt_le_dec m x then Fin x else Fin m
  end.

(** [s.max()]: NaN when the series is empty or all NaN. *)
Definition max (vs : list float) : float := fold_left max_step vs NaN.

(** The numbers of a series, the missing values dropped. *)
Fixpoint numbers (vs : list float) : list Q :=
  match vs with
  | [] => []
  | NaN :: rest => numbers rest
  | Fin x :: rest => x :: numbers rest
  end.

(** [s.mean()] on a series that may hold missing values: they are
    skipped, and the mean is NaN when no number is left. *)
Definition mean_skipna (vs : list float) : float := mean (numbers vs).

End Series.

(** ** The libraries the script calls *)

(** What a call inside [try] does: it returns or it raises. *)
Inductive outcome (A : Type) := Returned (a : A) | Raised.
Arguments Returned {A} _.
Arguments Raised {A}.

Definition matrix (A : Type) := list (list A).

Class Library := {
  (** the state of NumPy's process-wide generator *)
  rng : Type;
  (** [np.random.choice(n, size, replace=False)]: the indices drawn and the
      generator's next state *)
  random_choice : rng -> nat -> nat -> list nat * rng;
  (** [np.sqrt] on a number that is not negative *)
  sqrtQ : Q -> Q;
  (** [spearmanr(x, y)]: the correlation of the returned pair *)
  spearmanr : list Q -> list cell -> outcome float;
  (** [RandomForestClassifier(n_estimators, max_depth, random_state,
      n_jobs=-1).fit(X, y).feature_importances_]; without a [random_state]
      the estimator draws from the process-wide generator *)
  rf_feature_importances :
    nat -> nat -> option Z -> rng -> Frame Q -> list cell -> list float;
  (** [mutual_info_classif(X, y, random_state)] *)
  mutual_info_classif : option Z -> rng -> Frame Q -> list cell -> list float;
  (** [StandardScaler().fit_transform(X)] *)
  scaler_fit_transform : Frame Q -> matrix float;
  (** [PCA(n_components, random_state)]: [fit_transform] followed by
      [inverse_transform] *)
  pca_round_trip : nat -> option Z -> rng -> matrix float -> matrix float;
  (** [df.sort_values(key, ascending=False)] with the default [kind] *)
  sort_values_desc : forall A : Type, (A -> float) -> list A -> list A
}.

(** ** The script *)

(** One row of the merged table (lines 133-137). *)
Record metric_row := {
  feature : string;
  importance : float;
  mutual_info : float;
  correlation : float;
  cohens_d : float;
  pca_reconstruction_error : float
}.

(** The five columns of line 139. *)
Inductive metric :=
  Importance | MutualInfo | Correlation | CohensD | PcaReconstructionError.

Definition raw (m : metric) (r : metric_row) : float :=
  match m with
  | Importance => importance r
  | MutualInfo => mutual_info r
  | Correlation => correlation r
  | CohensD => cohens_d r
  | PcaReconstructionError => pca_reconstruction_error r
  end.

(** A row after the loop of lines 139-144. *)
Record norm_row := {
  base : metric_row;
  importance_norm : float;
  mutual_info_norm : float;
  correlation_norm : float;
  cohens_d_norm : float;
  pca_reconstruction_error_norm : float
}.

Definition norm (m : metric) (r : norm_row) : float :=
  match m with
  | Importance => importance_norm r
  | MutualInfo => mutual_info_norm r
  | Correlation => correlation_norm r
  | CohensD => cohens_d_norm r
  | PcaReconstructionError => pca_reconstruction_error_norm r
  end.

(** A row of the final table (lines 146-164). *)
Record scored_row := {
  normed : norm_row;
  usefulness_score : float;
  combined_score : float;
  feature_group : string
}.

(** [df.fillna(value)], per cell. *)
Definition fillna (value : Q) (c : cell) : cell :=
  match c with
  | Val NaN => Val (Fin value)
  | _ => c
  end.

(** [df.replace([np.inf, -np.inf], value)], per cell. *)
Definition replace_inf (value : Q) (c : cell) : cell :=
  match c with
  | Inf _ => Val (Fin value)
  | _ => c
  end.

(** Line 60, per cell: [.fillna(0).replace([np.inf, -np.inf], 0)].  What is
    left is a number (see [clean_is_number]). *)
Definition clean (c : cell) : Q :=
  match replace_inf 0 (fillna 0 c) with
  | Val (Fin q) => q
  | _ => 0
  end.

(** Lines 140-144 for one column: the value every entry of the
    [col_norm] column gets, given the column maximum. *)
Definition normalise (max_val v : float) : float :=
  if Float.gt0 max_val then (v / max_val)%float else Fin 0.

Definition col_max (m : metric) (t : list metric_row) : float :=
  Series.max (map (raw m) t).

(** Lines 139-144. *)
Definition add_norms (t : list metric_row) : list norm_row :=
  let mx := fun m => col_max m t in
  let m_imp := mx Importance in
  let m_mi := mx MutualInfo in
  let m_corr := mx Correlation in
  let m_d := mx CohensD in
  let m_pca := mx PcaReconstructionError in
  map (fun r =>
         {| base := r;
            importance_norm := normalise m_imp (importance r);
            mutual_info_norm := normalise m_mi (mutual_info r);
            correlation_norm := normalise m_corr (correlation r);
            cohens_d_norm := normalise m_d (cohens_d r);
            pca_reconstruction_error_norm :=
              normalise m_pca (pca_reconstruction_error r) |}) t.

(** Lines 146-151. *)
Definition usefulness (r : norm_row) : float :=
  (Fin 0.30 * importance_norm r +
   Fin 0.25 * mutual_info_norm r +
   Fin 0.20 * correlation_norm r +
   Fin 0.25 * cohens_d_norm r)%float.

(** Lines 153-156. *)
Definition combined (u : float) (r : norm_row) : float :=
  (Fin 0.70 * u + Fin 0.30 * pca_reconstruction_error_norm r)%float.

(** Lines 146-164: the two scores and the group of each row. *)
Definition add_scores (t : list norm_row) : list scored_row :=
  map (fun r =>
         let u := usefulness r in
         {| normed := r;
            usefulness_score := u;
            combined_score := combined u r;
            feature_group := get_feature_group (feature (base r)) |}) t.

(** [left.merge(right, on='feature')]: an inner join; every left row is
    paired with every right row of the same feature, in left order. *)
Definition merge {A B} (left : list (string * A)) (right : list (string * B))
  : list (string * (A * B)) :=
  flat_map (fun l =>
              map (fun r => (fst l, (snd l, snd r)))
                  (filter (fun r => String.eqb (fst r) (fst l)) right)) left.

(** [pd.DataFrame({'feature': names, col: values})] *)
Definition table {A} (names : list string) (values : list A) : list (string * A) :=
  combine names values.

(** [np.mean((a - b) ** 2)] over two columns of equal length. *)
Definition mean_sq_diff (a b : list float) : float :=
  match a with
  | [] => NaN
  | _ =>
      (fold_right Float.add (Fin 0)
         (map (fun p => Float.sq (fst p - snd p)%float) (combine a b))
       / Float.of_nat (length a))%float
  end.

(** [M[:, i]] *)
Definition matrix_col {A} (dflt : A) (M : matrix A) (i : nat) : list A :=
  map (fun r => nth i r dflt) M.

Section Script.

Context {L : Library}.

(** [np.sqrt]: NaN on NaN and on a negative number. *)
Definition np_sqrt (a : float) : float :=
  match a with
  | NaN => NaN
  | Fin x => if Qlt_le_dec x 0 then NaN else Fin (sqrtQ x)
  end.

(** [s.std()] *)
Definition std (xs : list Q) : float := np_sqrt (Series.var xs).

(** Line 56. *)
Definition available_features (df : Frame cell) : list string :=
  filter (fun f => mem f (columns df)) all_numeric_features.

(** Lines 60-61. *)
Definition X (df : Frame cell) : Frame Q :=
  let sel := select (Val NaN) df (available_features df) in
  {| columns := columns sel; rows := map (map clean) (rows sel) |}.

Definition y (df : Frame cell) : list cell := column (Val NaN) df "is_attack".

(** Lines 63-66. *)
Definition sample_size (df : Frame cell) : nat :=
  Nat.min 50000 (length (rows (X df))).

Definition sample_idx (g : rng) (df : Frame cell) : list nat :=
  fst (random_choice g (length (rows (X df))) (sample_size df)).

Definition X_sample (g : rng) (df : Frame cell) : Frame Q :=
  iloc (X df) (sample_idx g df).

Definition y_sample (g : rng) (df : Frame cell) : list cell :=
  take (Val NaN) (y df) (sample_idx g df).

(** From here on the script reads [available_features], [X_sample] and
    [y_sample] only; [Xs] carries the first as its column names.  [g] is
    the state of the process-wide generator after sampling. *)

(** Lines 71-76. *)
Definition feature_importance (g : rng) (Xs : Frame Q) (ys : list cell)
  : list (string * float) :=
  sort_values_desc _ snd
    (table (columns Xs)
           (rf_feature_importances 100 10 (Some 42%Z) g Xs ys)).

(** Lines 79-83. *)
Definition mutual_info_table (g : rng) (Xs : Frame Q) (ys : list cell)
  : list (string * float) :=
  sort_values_desc _ snd
    (table (columns Xs) (mutual_info_classif (Some 42%Z) g Xs ys)).

(** Lines 88-92: the body of the loop for one feature. *)
Definition correlation_of (xs : list Q) (ys : list cell) : float :=
  match spearmanr xs ys with
  | Returned corr => Float.abs corr
  | Raised => Fin 0
  end.

(** Lines 86-92. *)
Definition correlations (Xs : Frame Q) (ys : list cell) : list (string * float) :=
  map (fun feat => (feat, correlation_of (column 0 Xs feat) ys)) (columns Xs).

(** Line 93. *)
Definition correlation_df (Xs : Frame Q) (ys : list cell) : list (string * float) :=
  sort_values_desc _ snd (correlations Xs ys).

(** Lines 101-103: the dividend, the divisor and the quotient under the
    square root. *)
Definition pooled_sum_sq (benign_vals attack_vals : list Q) : float :=
  let nb := Z.of_nat (length benign_vals) in
  let na := Z.of_nat (length attack_vals) in
  (Float.of_Z (nb - 1) * Float.sq (std benign_vals) +
   Float.of_Z (na - 1) * Float.sq (std attack_vals))%float.

Definition pooled_dof (benign_vals attack_vals : list Q) : Z :=
  Z.of_nat (length benign_vals) + Z.of_nat (length attack_vals) - 2.

Definition pooled_var (benign_vals attack_vals : list Q) : float :=
  (pooled_sum_sq benign_vals attack_vals
   / Float.of_Z (pooled_dof benign_vals attack_vals))%float.

Definition pooled_std (benign_vals attack_vals : list Q) : float :=
  np_sqrt (pooled_var benign_vals attack_vals).

(** Lines 101-108. *)
Definition cohens_d_of (benign_vals attack_vals : list Q) : float :=
  let pooled := pooled_std benign_vals attack_vals in
  if Float.gt0 pooled then
    (Float.abs (Series.mean benign_vals - Series.mean attack_vals) / pooled)%float
  else Fin 0.

(** Lines 98-99. *)
Definition class_vals (label : Q) (Xs : Frame Q) (ys : list cell) (feat : string)
  : list Q :=
  column 0 (mask_rows (map (fun v => Cell.eqb v label) ys) Xs) feat.

(** Lines 96-110. *)
Definition separability (Xs : Frame Q) (ys : list cell) : list (string * float) :=
  map (fun feat =>
         (feat, cohens_d_of (class_vals 0 Xs ys feat) (class_vals 1 Xs ys feat)))
      (columns Xs).

(** Line 112. *)
Definition separability_df (Xs : Frame Q) (ys : list cell) : list (string * float) :=
  sort_values_desc _ snd (separability Xs ys).

(** Lines 116-129. *)
Definition n_components (Xs : Frame Q) : nat := Nat.min 20 (length (columns Xs)).

Definition reconstruction_df (g : rng) (Xs : Frame Q) : list (string * float) :=
  let X_scaled := scaler_fit_transform Xs in
  let X_reconstructed := pca_round_trip (n_components Xs) (Some 42%Z) g X_scaled in
  map (fun p =>
         (snd p, mean_sq_diff (matrix_col NaN X_scaled (fst p))
                              (matrix_col NaN X_reconstructed (fst p))))
      (combine (seq 0 (length (columns Xs))) (columns Xs)).

(** Lines 133-137. *)
Definition metrics_combined (g : rng) (Xs : Frame Q) (ys : list cell)
  : list metric_row :=
  map (fun r =>
         match r with
         | (f, ((((imp, mi), corr), d), err)) =>
             {| feature := f; importance := imp; mutual_info := mi;
                correlation := corr; cohens_d := d;
                pca_reconstruction_error := err |}
         end)
      (merge (merge (merge (merge (feature_importance g Xs ys)
                                  (mutual_info_table g Xs ys))
                           (correlation_df Xs ys))
                    (separability_df Xs ys))
             (reconstruction_df g Xs)).

(** Lines 139-164. *)
Definition scored (g : rng) (Xs : Frame Q) (ys : list cell) : list scored_row :=
  add_scores (add_norms (metrics_combined g Xs ys)).

(** Line 166. *)
Definition ranked (g : rng) (Xs : Frame Q) (ys : list cell) : list scored_row :=
  sort_values_desc _ combined_score (scored g Xs ys).

(** The whole run, from the table and the generator state the process
    starts with. *)
Definition run (g : rng) (df : Frame cell) : list scored_row :=
  let g' := snd (random_choice g (length (rows (X df))) (sample_size df)) in
  ranked g' (X_sample g df) (y_sample g df).

End Script.

(** ** The effect size in double precision

    Lines 100-108 once more, in the arithmetic NumPy and pandas compute in:
    IEEE 754 binary64, every operation rounded to the nearest double.  The
    operations are the Standard Library's [SpecFloat] at precision 53.

    pandas takes the mean as the sum divided by the count, and the variance
    in two passes: the squared deviations from that mean are added up and
    divided by the count less one (NaN when the count is at most one); the
    standard deviation is its square root.  NumPy adds fewer than eight
    values from left to right. *)

Module IEEE.

Definition prec : Z := 53%Z.
Definition emax : Z := 1024%Z.

Definition double := SpecFloat.spec_float.

Definition nan : double := SpecFloat.S754_nan.
Definition add : double -> double -> double := SpecFloat.SFadd prec emax.
Definition sub : double -> double -> double := SpecFloat.SFsub prec emax.
Definition mul : double -> double -> double := SpecFloat.SFmul prec emax.
Definition div : double -> double -> double := SpecFloat.SFdiv prec emax.
Definition sqrt : double -> double := SpecFloat.SFsqrt prec emax.
Definition abs : double -> double := SpecFloat.SFabs.

(** An integer as a double (exact below 2^53: the lengths and the
    literals of the script). *)
Definition of_Z (n : Z) : double :=
  SpecFloat.binary_normalize prec emax n 0 false.

Definition zero : double := of_Z 0.

(** [a > 0], false on NaN. *)
Definition gt0 (a : double) : bool := SpecFloat.SFltb zero a.

(** [a ** 2] *)
Definition sq (a : double) : double := mul a a.

Definition sum (xs : list double) : double := fold_left add xs zero.

Definition count (xs : list double) : double := of_Z (Z.of_nat (length xs)).

(** [s.mean()] *)
Definition mean (xs : list double) : double :=
  match xs with
  | [] => nan
  | _ => div (sum xs) (count xs)
  end.

Definition sq_dev (avg x : double) : double := sq (sub avg x).

(** [s.var()] with the default [ddof=1]. *)
Definition var (xs : list double) : double :=
  if (length xs <=? 1)%nat then nan
  else
    let avg := div (sum xs) (count xs) in
    div (sum (map (sq_dev avg) xs)) (sub (count xs) (of_Z 1)).

(** [s.std()] *)
Definition std (xs : list double) : double := sqrt (var xs).

(** Lines 101-103. *)
Definition pooled_std (benign_vals attack_vals : list double) : double :=
  let nb := Z.of_nat (length benign_vals) in
  let na := Z.of_nat (length attack_vals) in
  sqrt (div (add (mul (of_Z (nb - 1)) (sq (std benign_vals)))
                 (mul (of_Z (na - 1)) (sq (std attack_vals))))
            (of_Z (nb + na - 2))).

(** Lines 101-108. *)
Definition cohens_d_of (benign_vals attack_vals : list double) : double :=
  let pooled := pooled_std benign_vals attack_vals in
  if gt0 pooled then
    div (abs (sub (mean benign_vals) (mean attack_vals))) pooled
  else zero.

(** The double that the literal [0.1] denotes: 1/10 rounded to nearest. *)
Definition tenth : double := div (of_Z 1) (of_Z 10).

End IEEE.

(** ** The report (lines 168-183) *)

(** [df.head(k)] *)
Definition head {A} (k : nat) (t : list A) : list A := firstn k t.

(** Lines 170-171: the five columns of the first 20 rows. *)
Definition top_20 (t : list scored_row) : list (string * string * float * float * float) :=
  map (fun r => (feature (base (normed r)), feature_group r, usefulness_score r,
                 pca_reconstruction_error (base (normed r)), combined_score r))
      (head 20 t).

(** One row of [group_stats]. *)
Record group_row := {
  group : string;
  mean_usefulness_score : float;
  mean_pca_reconstruction_error_norm : float;
  mean_combined_score : float;
  num_features : nat
}.

Fixpoint insert_key (k : string) (ks : list string) : list string :=
  match ks with
  | [] => [k]
  | h :: rest => if String.leb k h then k :: ks else h :: insert_key k rest
  end.

(** The keys of [groupby]: the distinct values of the column, sorted. *)
Definition group_keys (t : list scored_row) : list string :=
  fold_right insert_key [] (nodup string_dec (map feature_group t)).

(** The rows of one group, in table order. *)
Definition group_members (k : string) (t : list scored_row) : list scored_row :=
  filter (fun r => String.eqb (feature_group r) k) t.

(** Lines 176-181: the mean of three columns and the number of features
    of every group. *)
Definition group_agg (t : list scored_row) : list group_row :=
  map (fun k =>
         let rows := group_members k t in
         {| group := k;
            mean_usefulness_score := Series.mean_skipna (map usefulness_score rows);
            mean_pca_reconstruction_error_norm :=
              Series.mean_skipna
                (map (fun r => pca_reconstruction_error_norm (normed r)) rows);
            mean_combined_score := Series.mean_skipna (map combined_score rows);
            num_features := length rows |})
      (group_keys t).

Section Report.

Context {L : Library}.

(** Line 182. *)
Definition group_stats (t : list scored_row) : list group_row :=
  sort_values_desc _ mean_combined_score (group_agg t).

End Report.

(** ** Notions used in the statements *)

(** No group in [groups] lists the feature. *)
Definition unlisted (feature : string) (groups : catalog) : Prop :=
  Forall (fun p => ~ In feature (snd p)) groups.

(** The column of a metric over a table whose values are all numbers that
    are not negative. *)
Definition nonneg_column (m : metric) (t : list metric_row) : Prop :=
  Forall Float.nonneg (map (raw m) t).

(** The cleaned feature values and the label of one row of the table. *)
Definition feature_row (df : Frame cell) (r : list cell) : list Q :=
  map clean (map (fun c => nth (index_of c (columns df)) r (Val NaN)) (available_features df)).

Definition label_of (df : Frame cell) (r : list cell) : cell :=
  nth (index_of "is_attack" (columns df)) r (Val NaN).

(** The feature names of a table, in row order. *)
Definition ranking (t : list scored_row) : list string :=
  map (fun r => feature (base (normed r))) t.

(** No string occurs twice. *)
Fixpoint distinct (xs : list string) : bool :=
  match xs with
  | [] => true
  | x :: rest => negb (mem x rest) && distinct rest
  end.

(** ** What the proofs ask of the libraries *)

(** Where [a] may stand before [b] in a descending order with the
    undefined values last ([na_position='last']). *)
Definition desc (a b : float) : Prop :=
  match a, b with
  | Fin x, Fin y => y <= x
  | _, NaN => True
  | NaN, Fin _ => False
  end.

(** [a] stands somewhere before [b] in [l]. *)
Definition precedes {A} (a b : A) (l : list A) : Prop :=
  exists l1 l2 l3, l = l1 ++ a :: l2 ++ b :: l3.

Section Contracts.

Context (L : Library).

(** Drawing [k <= n] indices without replacement gives [k] distinct
    indices below [n]. *)
Definition choice_contract : Prop :=
  forall g n k, (k <= n)%nat ->
    let idx := fst (random_choice g n k) in
    length idx = k /\ NoDup idx /\ Forall (fun i => (i < n)%nat) idx.

(** The estimators return one value per column of the matrix. *)
Definition per_feature_contract : Prop :=
  (forall ne md s g Xs ys,
      length (rf_feature_importances ne md s g Xs ys) = length (columns Xs)) /\
  (forall s g Xs ys,
      length (mutual_info_classif s g Xs ys) = length (columns Xs)).

(** An estimator that is given a seed does not read the process-wide
    generator. *)
Definition seeded_contract : Prop :=
  (forall ne md s g g' Xs ys,
      rf_feature_importances ne md (Some s) g Xs ys =
      rf_feature_importances ne md (Some s) g' Xs ys) /\
  (forall s g g' Xs ys,
      mutual_info_classif (Some s) g Xs ys =
      mutual_info_classif (Some s) g' Xs ys) /\
  (forall k s g g' M,
      pca_round_trip k (Some s) g M = pca_round_trip k (Some s) g' M).

(** Sorting rearranges the rows. *)
Definition sort_permutes : Prop :=
  forall A (key : A -> float) l, Permutation l (sort_values_desc A key l).

(** Sorting puts the rows in descending order of the key, undefined keys
    last. *)
Definition sort_sorts : Prop :=
  forall A (key : A -> float) l,
    StronglySorted (fun a b => desc (key a) (key b)) (sort_values_desc A key l).

End Contracts.

(** *** Uniform draws *)

(** An admissible draw: [k] distinct indices below [n]. *)
Definition arrangement (n k : nat) (a : list nat) : Prop :=
  length a = k /\ NoDup a /\ Forall (fun i => (i < n)%nat) a.

Fixpoint list_eqb (a b : list nat) : bool :=
  match a, b with
  | [], [] => true
  | x :: a', y :: b' => (x =? y)%nat && list_eqb a' b'
  | _, _ => false
  end.

(** The number of generator states among [states] from which drawing [k]
    of [n] gives [a]. *)
Definition draws (L : Library) (states : list rng) (n k : nat) (a : list nat) : nat :=
  length (filter (fun g => list_eqb (fst (random_choice g n k)) a) states).

(** The draw of [k] of [n] is uniform over the equally likely states
    [states]: every admissible draw comes from the same number of them. *)
Definition uniform_choice (L : Library) (states : list rng) (n k : nat) : Prop :=
  forall a b, arrangement n k a -> arrangement n k b ->
    draws L states n k a = draws L states n k b.

(** ** Executable stand-ins for the libraries *)

Module Ref.

(** A linear congruential generator in place of the Mersenne Twister. *)
Definition lcg (g : N) : N := ((1103515245 * g + 12345) mod 2147483648)%N.

(** The high bits of the state, which are the better ones. *)
Definition bits (g : N) : N := (g / 65536)%N.

Fixpoint remove_nth {A} (n : nat) (l : list A) : list A :=
  match l, n with
  | [], _ => []
  | _ :: t, O => t
  | h :: t, S n' => h :: remove_nth n' t
  end.

(** Draw [k] elements of [pool] one at a time without putting them back. *)
Fixpoint draw (k : nat) (g : N) (pool : list nat) : list nat * N :=
  match k with
  | O => ([], g)
  | S k' =>
      match pool with
      | [] => ([], g)
      | _ =>
          let g1 := lcg g in
          let j := N.to_nat (bits g1 mod N.of_nat (length pool)) in
          let '(rest, g2) := draw k' g1 (remove_nth j pool) in
          (nth j pool O :: rest, g2)
      end
  end.

Definition choice (g : N) (n k : nat) : list nat * N :=
  draw k g (seq 0 n).

(** The square root of [p/d] as [sqrt (p*d) / d], with six decimals. *)
Definition sqrt_approx (x : Q) : Q :=
  Qred (Z.sqrt (Qnum x * Zpos (Qden x) * 1000000000000) # (Qden x * 1000000)).

Definition sqrt (a : float) : float :=
  match a with
  | NaN => NaN
  | Fin x => if Qlt_le_dec x 0 then NaN else Fin (sqrt_approx x)
  end.

Definition countQ (p : Q -> bool) (xs : list Q) : Q :=
  inject_Z (Z.of_nat (length (filter p xs))).

(** Ranks with ties averaged. *)
Definition ranks (xs : list Q) : list Q :=
  map (fun x =>
         countQ (fun x' => if Qlt_le_dec x' x then true else false) xs +
         (countQ (Qeq_bool x) xs + 1) / 2) xs.

Definition centred (xs : list Q) : list Q :=
  let m := Series.sum xs / Series.count xs in map (fun x => x - m) xs.

Definition dot (xs ys : list Q) : Q :=
  Series.sum (map (fun p => fst p * snd p) (combine xs ys)).

(** Pearson's coefficient; [0/0] when a side is constant. *)
Definition pearson (xs ys : list Q) : float :=
  let cx := centred xs in
  let cy := centred ys in
  (Fin (Qred (dot cx cy)) / (sqrt (Fin (Qred (dot cx cx))) * sqrt (Fin (Qred (dot cy cy)))))%float.

(** Spearman's coefficient: Pearson's on the ranks.  It returns NaN, and
    does not raise, when a side is constant; it raises when the two sides
    differ in length. *)
Definition spearman (xs : list Q) (ys : list cell) : outcome float :=
  if negb (length xs =? length ys)%nat then Raised
  else if negb (forallb Cell.is_number ys) then Returned NaN
  else Returned (pearson (ranks xs) (ranks (map clean ys))).

(** [n] row positions drawn with replacement from the seed. *)
Fixpoint bootstrap (k : nat) (g : N) (n : nat) : list nat :=
  match k with
  | O => []
  | S k' => let g1 := lcg g in N.to_nat (bits g1 mod N.of_nat n) :: bootstrap k' g1 n
  end.

Definition seed_of (random_state : option Z) (g : N) : N :=
  match random_state with Some s => Z.to_N s | None => g end.

Definition mean_or_zero (xs : list Q) : Q :=
  match xs with [] => 0 | _ => Qred (Series.sum xs / Series.count xs) end.

(** In place of the forest: the gap between the class means of each
    feature over one bootstrap sample of the rows, scaled to sum to 1. *)
Definition forest_importances (n_estimators max_depth : nat)
    (random_state : option Z) (g : N) (Xs : Frame Q) (ys : list cell)
  : list float :=
  let n := length (rows Xs) in
  let pos := bootstrap n (seed_of random_state g) n in
  let bx := take [] (rows Xs) pos in
  let bys := take (Val NaN) ys pos in
  let is1 := map (fun v => Cell.eqb v 1) bys in
  let gap := fun i =>
    let col := map (fun r => nth i r 0) bx in
    Qabs (mean_or_zero (mask_select is1 col) -
          mean_or_zero (mask_select (map negb is1) col)) in
  let gaps := map gap (seq 0 (length (columns Xs))) in
  let total := Qred (Series.sum gaps) in
  map (fun d => if Qeq_bool total 0 then Fin 0 else Fin (Qred (d / total))) gaps.

(** In place of the nearest-neighbour estimate: no information. *)
Definition no_information (random_state : option Z) (g : N)
    (Xs : Frame Q) (ys : list cell) : list float :=
  map (fun _ => Fin 0) (columns Xs).

(** Centre each column and divide by its standard deviation (by 1 when
    the column is constant). *)
Definition standardise (Xs : Frame Q) : matrix float :=
  let n := Series.count (map (fun _ => 0) (rows Xs)) in
  let stats := map (fun i =>
      let col := map (fun r => nth i r 0) (rows Xs) in
      let m := Qred (Series.sum col / n) in
      let v := Qred (Series.sum (map (Series.sq_dev m) col) / n) in
      (m, if Qeq_bool v 0 then 1 else sqrt_approx v)) (seq 0 (length (columns Xs))) in
  map (fun r => map (fun p => Fin (Qred ((fst p - fst (snd p)) / snd (snd p))))
                    (combine r stats)) (rows Xs).

(** In place of the principal components: keep the first [k] columns and
    rebuild the others as their mean, which is 0 after scaling. *)
Definition truncate_round_trip (k : nat) (random_state : option Z) (g : N)
    (M : matrix float) : matrix float :=
  map (fun r => firstn k r ++ map (fun _ => Fin 0) (skipn k r)) M.

(** [a] goes before [b]: a larger key first, undefined keys last. *)
Definition goes_before (strict : bool) (a b : float) : bool :=
  match a, b with
  | Fin x, Fin y =>
      if strict then (if Qlt_le_dec y x then true else false)
      else (if Qlt_le_dec x y then false else true)
  | Fin _, NaN => true
  | NaN, NaN => true
  | NaN, Fin _ => false
  end.

Fixpoint insert {A} (strict : bool) (key : A -> float) (x : A) (l : list A) : list A :=
  match l with
  | [] => [x]
  | h :: t =>
      if goes_before strict (key x) (key h) then x :: h :: t
      else h :: insert strict key x t
  end.

(** Insertion sort.  With [strict = false] a row goes before the rows of
    equal key that follow it: ties keep their order.  With [strict = true]
    it goes behind them: ties come out reversed. *)
Definition insertion_sort (strict : bool) (A : Type) (key : A -> float)
    (l : list A) : list A :=
  fold_right (insert strict key) [] l.

Definition library : Library := {|
  rng := N;
  random_choice := choice;
  sqrtQ := sqrt_approx;
  spearmanr := spearman;
  rf_feature_importances := forest_importances;
  mutual_info_classif := no_information;
  scaler_fit_transform := standardise;
  pca_round_trip := truncate_round_trip;
  sort_values_desc := insertion_sort false
|}.

End Ref.

(** ** An ideal generator

    NumPy draws without replacement by shuffling the population and keeping
    the first [size] entries.  Here the state of the generator is the
    shuffled population itself, and the equally likely states are all its
    orderings. *)

Module Ideal.

(** All orderings of a list without duplicates (of length [fuel]). *)
Fixpoint orderings (fuel : nat) (l : list nat) : list (list nat) :=
  match fuel with
  | O => [[]]
  | S fuel' =>
      flat_map (fun x => map (cons x) (orderings fuel' (remove Nat.eq_dec x l))) l
  end.

Definition states (n : nat) : list (list nat) := orderings n (seq 0 n).

(** [g] is an ordering of the indices below [n]. *)
Definition is_ordering (g : list nat) (n : nat) : bool :=
  (length g =? n)%nat && forallb (fun i => existsb (Nat.eqb i) g) (seq 0 n).

(** The first [k] entries of the shuffled population (of the population in
    index order when the state is not one of its orderings). *)
Definition choice (g : list nat) (n k : nat) : list nat * list nat :=
  (firstn k (if is_ordering g n then g else seq 0 n), g).

Definition library : Library := {|
  rng := list nat;
  random_choice := choice;
  sqrtQ := Ref.sqrt_approx;
  spearmanr := Ref.spearman;
  rf_feature_importances := fun ne md s _ => Ref.forest_importances ne md s 0%N;
  mutual_info_classif := fun s _ => Ref.no_information s 0%N;
  scaler_fit_transform := Ref.standardise;
  pca_round_trip := fun k s _ => Ref.truncate_round_trip k s 0%N;
  sort_values_desc := Ref.insertion_sort false
|}.

(** [p] begins with [a]. *)
Fixpoint starts_with (a p : list nat) : bool :=
  match a, p with
  | [], _ => true
  | x :: a', y :: p' => (x =? y)%nat && starts_with a' p'
  | _ :: _, [] => false
  end.

End Ideal.

(** ** Inputs used in the examples *)

(** A merged table of two features; the reconstruction error is 0
    throughout. *)
Definition demo_metrics : list metric_row :=
  [ {| feature := "Flow Duration"; importance := Fin 0.6; mutual_info := Fin 0.2;
       correlation := Fin 0.5; cohens_d := Fin 2; pca_reconstruction_error := Fin 0 |};
    {| feature := "SYN Flag Count"; importance := Fin 0.4; mutual_info := Fin 0.1;
       correlation := Fin 0.25; cohens_d := Fin 1; pca_reconstruction_error := Fin 0 |} ].

(** A sample in which the feature is constant, and its labels. *)
Definition constant_sample : Frame Q :=
  {| columns := ["SYN Flag Count"]; rows := [[5]; [5]; [5]; [5]] |}.

Definition demo_labels : list cell :=
  [Val (Fin 0); Val (Fin 1); Val (Fin 0); Val (Fin 1)].

(** A sample with two features that have the same values in every row. *)
Definition tied_sample : Frame Q :=
  {| columns := ["Flow Duration"; "Flow IAT Mean"];
     rows := [[1; 1]; [4; 4]; [2; 2]; [7; 7]] |}.

(** A table of six flows with two catalog features and the label. *)
Definition demo_table : Frame cell :=
  {| columns := ["Flow Duration"; "Down/Up Ratio"; "is_attack"];
     rows := map (map (fun q => Val (Fin q)))
               [ [1; 3; 0]; [2; 1; 0]; [3; 2; 0]; [7; 9; 1]; [8; 7; 1]; [9; 8; 1] ] |}.

(** A table with a missing value, two infinite values, a column outside
    the catalog and a missing label. *)
Definition holed_table : Frame cell :=
  {| columns := ["Flow Duration"; "Timestamp"; "Flow Bytes/s"; "is_attack"];
     rows := [ [Val (Fin 4); Val (Fin 11); Val (Fin 1); Val (Fin 0)];
               [Val NaN; Val (Fin 12); Inf false; Val (Fin 1)];
               [Val (Fin 6); Val (Fin 13); Inf true; Val NaN];
               [Val (Fin 2); Val (Fin 14); Val (Fin 3); Val (Fin 1)] ] |}.

(** A sample with one feature that varies and one that is constant. *)
Definition mixed_sample : Frame Q :=
  {| columns := ["Flow Duration"; "SYN Flag Count"];
     rows := [[1; 5]; [4; 5]; [2; 5]; [7; 5]] |}.

(** * Properties *)

(** ** Lists and strings *)

Lemma mem_In x xs : mem x xs = true <-> In x xs.
Proof.
  unfold mem. rewrite existsb_exists. split.
  - intros [x' [Hin E]]. apply String.eqb_eq in E. now subst.
  - intros Hin. exists x. split; [exact Hin | apply String.eqb_refl].
Qed.

Lemma mem_not_In x xs : mem x xs = false <-> ~ In x xs.
Proof.
  rewrite <- mem_In. destruct (mem x xs); split; congruence.
Qed.

(** ** The group of a feature *)

Lemma group_lookup_spec (groups : catalog) (feature : string) :
  (exists pre fs post,
      groups = pre ++ (group_lookup groups feature, fs) :: post /\
      In feature fs /\ unlisted feature pre)
  \/ (unlisted feature groups /\ group_lookup groups feature = "Unknown").
Proof.
  induction groups as [|[g fs] rest IH]; simpl.
  - right. split; [constructor | reflexivity].
  - destruct (mem feature fs) eqn:E.
    + left. exists [], fs, rest. repeat split.
      * now apply mem_In.
      * constructor.
    + apply mem_not_In in E.
      destruct IH as [(pre & fs' & post & Heq & Hin & Hpre) | [Hnone Hres]].
      * left. exists ((g, fs) :: pre), fs', post. repeat split.
        -- simpl. now rewrite <- Heq.
        -- exact Hin.
        -- constructor; assumption.
      * right. split; [constructor; assumption | exact Hres].
Qed.

(** C9.  For every feature name, [get_feature_group] returns the name of the
    first group, in the order the catalog is written, whose list has the
    feature (no group before it lists the feature), and it returns
    "Unknown" when no group of the catalog lists the feature. *)
Theorem get_feature_group_first_match (feature : string) :
  (exists pre fs post,
      FEATURE_GROUPS = pre ++ (get_feature_group feature, fs) :: post /\
      In feature fs /\ unlisted feature pre)
  \/ (unlisted feature FEATURE_GROUPS /\ get_feature_group feature = "Unknown").
Proof.
  apply group_lookup_spec.
Qed.

(** A feature in two groups of a catalog resolves to the first one. *)
Example group_lookup_two_groups :
  group_lookup [("A", ["x"; "y"]); ("B", ["y"; "z"])] "y" = "A" /\
  group_lookup [("A", ["x"; "y"]); ("B", ["y"; "z"])] "z" = "B" /\
  group_lookup [("A", ["x"; "y"]); ("B", ["y"; "z"])] "w" = "Unknown".
Proof. repeat split. Qed.

Example get_feature_group_examples :
  get_feature_group "SYN Flag Count" = "TCP Flags" /\
  get_feature_group "has_response" = "Engineered - Response" /\
  get_feature_group "is_attack" = "Unknown".
Proof. repeat split. Qed.

(** ** Float arithmetic *)

Lemma gt0_true a : Float.gt0 a = true <-> exists x, a = Fin x /\ 0 < x.
Proof.
  destruct a as [|x]; simpl.
  - split; [discriminate | intros (x & E & _); discriminate].
  - destruct (Qlt_le_dec 0 x) as [Hlt|Hle]; split; intros H.
    + now exists x.
    + reflexivity.
    + discriminate.
    + destruct H as (x' & E & Hpos). injection E as ->. lra.
Qed.

Lemma div_fin x y : ~ y == 0 -> (Fin x / Fin y)%float = Fin (x / y).
Proof.
  intros Hy. unfold Float.div.
  destruct (Qeq_bool y 0) eqn:E; [|reflexivity].
  apply Qeq_bool_eq in E. contradiction.
Qed.

Lemma Qdiv_unit x m : 0 <= x -> x <= m -> 0 < m -> 0 <= x / m <= 1.
Proof.
  intros Hx Hxm Hm. split.
  - apply Qle_shift_div_l; lra.
  - apply Qle_shift_div_r; lra.
Qed.

(** ** The composite scores *)




(** ** Normalisation by the column maximum *)

Lemma max_fold_spec (vs : list float) (a : Q) :
  Forall Float.nonneg vs ->
  exists m, fold_left Series.max_step vs (Fin a) = Fin m /\
            a <= m /\
            (forall x, In (Fin x) vs -> x <= m) /\
            (m = a \/ In (Fin m) vs).
Proof.
  intros Hvs. revert a. induction Hvs as [|v vs Hv _ IH]; intros a; simpl.
  - exists a. repeat split; [lra | tauto | now left].
  - destruct v as [|x]; [contradiction|]. simpl.
    destruct (Qlt_le_dec a x) as [Hlt|Hle].
    + destruct (IH x) as (m & E & Hxm & Hall & Hin).
      exists m. repeat split; [exact E | lra | | ].
      * intros x' [Hx'|Hx']; [injection Hx' as <-; exact Hxm | now apply Hall].
      * destruct Hin as [->|Hin]; right; [now left | now right].
    + destruct (IH a) as (m & E & Ham & Hall & Hin).
      exists m. repeat split; [exact E | exact Ham | | ].
      * intros x' [Hx'|Hx']; [injection Hx' as <-; lra | now apply Hall].
      * destruct Hin as [->|Hin]; [now left | right; now right].
Qed.

Lemma series_max_spec (vs : list float) :
  Forall Float.nonneg vs -> vs <> [] ->
  exists m, Series.max vs = Fin m /\ 0 <= m /\ In (Fin m) vs /\
            forall x, In (Fin x) vs -> x <= m.
Proof.
  intros Hvs Hne. destruct vs as [|v vs]; [congruence|].
  inversion Hvs as [|? ? Hv Hrest]; subst.
  destruct v as [|x]; [contradiction|]. simpl in Hv.
  unfold Series.max. simpl.
  destruct (max_fold_spec vs x Hrest) as (m & E & Hxm & Hall & Hin).
  exists m. repeat split; [exact E | lra | | ].
  - destruct Hin as [->|Hin]; [now left | now right].
  - intros x' [Hx'|Hx']; [injection Hx' as <-; exact Hxm | now apply Hall].
Qed.

Lemma add_norms_rows (t : list metric_row) (r' : norm_row) :
  In r' (add_norms t) <->
  In (base r') t /\ forall m, norm m r' = normalise (col_max m t) (raw m (base r')).
Proof.
  unfold add_norms. rewrite in_map_iff. split.
  - intros (r & <- & Hr). split; [exact Hr|]. intros []; reflexivity.
  - intros [Hin Hn]. exists (base r'). split; [|exact Hin].
    destruct r' as [b n1 n2 n3 n4 n5]. simpl in *.
    f_equal; symmetry;
      [ exact (Hn Importance) | exact (Hn MutualInfo) | exact (Hn Correlation)
      | exact (Hn CohensD) | exact (Hn PcaReconstructionError) ].
Qed.

Lemma add_norms_base (t : list metric_row) : map base (add_norms t) = t.
Proof.
  unfold add_norms. rewrite map_map. simpl. apply map_id.
Qed.

Lemma normalise_cases (m : metric) (t : list metric_row) :
  nonneg_column m t -> t <> [] ->
  exists mx, col_max m t = Fin mx /\ 0 <= mx /\
             (exists r, In r t /\ raw m r = Fin mx) /\
             forall r, In r t -> exists x, raw m r = Fin x /\ 0 <= x <= mx.
Proof.
  intros Hcol Hne.
  destruct (series_max_spec (map (raw m) t) Hcol) as (mx & E & Hpos & Hin & Hall).
  { destruct t; [congruence | discriminate]. }
  exists mx. repeat split; try assumption.
  - apply in_map_iff in Hin. destruct Hin as (r & Hr & Hrt). now exists r.
  - intros r Hr. unfold nonneg_column in Hcol. rewrite Forall_forall in Hcol.
    assert (Hraw : In (raw m r) (map (raw m) t)) by now apply in_map.
    specialize (Hcol _ Hraw).
    destruct (raw m r) as [|x] eqn:Ex; [contradiction|].
    exists x. split; [reflexivity|]. split; [exact Hcol | now apply Hall].
Qed.

(** C3.  For each of the five metric columns whose raw values are numbers
    that are not negative.  The normalised table has the rows of the merged
    table, in the same order.  The column maximum of a table with at least
    one row is a number, it is the raw value of one of the rows, and no raw
    value of the column is larger.  Every entry of the [_norm] column is a
    number between 0 and 1; when the column maximum is 0 the [_norm] column
    is 0 throughout, and a [_norm] column of a table with at least one row
    that is 0 throughout has column maximum 0; when the maximum is not 0
    every entry is the raw value divided by the maximum. *)
Theorem norm_columns_in_unit (m : metric) (t : list metric_row) :
  nonneg_column m t ->
  map base (add_norms t) = t /\
  (t <> [] ->
     exists mx, col_max m t = Fin mx /\
       (exists r, In r t /\ raw m r = Fin mx) /\
       (forall r, In r t -> Float.le (raw m r) (Fin mx))) /\
  (forall r', In r' (add_norms t) -> Float.in_unit (norm m r')) /\
  ((col_max m t == Fin 0)%float ->
     forall r', In r' (add_norms t) -> norm m r' = Fin 0) /\
  (t <> [] -> (forall r', In r' (add_norms t) -> (norm m r' == Fin 0)%float) ->
     (col_max m t == Fin 0)%float) /\
  (~ (col_max m t == Fin 0)%float ->
     forall r', In r' (add_norms t) ->
       norm m r' = (raw m (base r') / col_max m t)%float /\
       exists x mx, raw m (base r') = Fin x /\ col_max m t = Fin mx /\
                    0 < mx /\ norm m r' = Fin (x / mx)).
Proof.
  intros Hcol.
  assert (Hcase : t = [] \/ t <> []) by (destruct t; [now left | right; discriminate]).
  split; [apply add_norms_base|].
  destruct Hcase as [->|Hne].
  { split; [|split; [|split; [|split]]].
    - intros Hne. now contradiction Hne.
    - intros r' [].
    - intros _ r' [].
    - intros Hne. now contradiction Hne.
    - intros _ r' []. }
  destruct (normalise_cases m t Hcol Hne) as (mx & Emax & Hmx & (rmax & Hrmax & Ermax) & Hall).
  split.
  { intros _. exists mx. split; [exact Emax|]. split; [now exists rmax|].
    intros r Hr. destruct (Hall r Hr) as (x & -> & Hx). simpl. apply Hx. }
  rewrite Emax.
  assert (Hnorm : forall r', In r' (add_norms t) ->
            exists x, In (base r') t /\ raw m (base r') = Fin x /\ 0 <= x <= mx /\
                      norm m r' = if Qlt_le_dec 0 mx then Fin (x / mx) else Fin 0).
  { intros r' Hr'. apply add_norms_rows in Hr'. destruct Hr' as [Hb Hn].
    destruct (Hall _ Hb) as (x & Ex & Hx). exists x.
    repeat split; try assumption; try apply Hx.
    rewrite (Hn m), Emax, Ex. unfold normalise, Float.gt0.
    destruct (Qlt_le_dec 0 mx) as [Hlt|Hle]; [|reflexivity].
    apply div_fin. lra. }
  split; [|split; [|split]].
  - intros r' Hr'. destruct (Hnorm _ Hr') as (x & _ & _ & Hx & ->).
    destruct (Qlt_le_dec 0 mx) as [Hlt|Hle]; simpl.
    + apply Qdiv_unit; lra.
    + lra.
  - intros Hzero r' Hr'. simpl in Hzero.
    destruct (Hnorm _ Hr') as (x & _ & _ & Hx & ->).
    destruct (Qlt_le_dec 0 mx) as [Hlt|Hle]; [lra | reflexivity].
  - intros _ Hzero. simpl.
    destruct (Qlt_le_dec 0 mx) as [Hlt|Hle]; [|lra].
    exfalso.
    assert (Hex : exists r', In r' (add_norms t) /\ base r' = rmax).
    { pose proof (add_norms_base t) as Hbase.
      rewrite <- Hbase in Hrmax. apply in_map_iff in Hrmax.
      destruct Hrmax as (r' & E & Hr'). now exists r'. }
    destruct Hex as (r' & Hr' & Eb).
    specialize (Hzero _ Hr').
    destruct (Hnorm _ Hr') as (x & _ & Ex & Hx & En).
    rewrite Eb, Ermax in Ex. injection Ex as <-.
    rewrite En in Hzero.
    destruct (Qlt_le_dec 0 mx) as [_|Hle]; [|lra].
    simpl in Hzero.
    assert (mx / mx == 1) by (field; lra). lra.
  - intros Hnz r' Hr'. simpl in Hnz.
    assert (Hlt : 0 < mx) by (destruct (Qlt_le_dec 0 mx); [assumption | exfalso; apply Hnz; lra]).
    destruct (Hnorm _ Hr') as (x & _ & Ex & Hx & En).
    destruct (Qlt_le_dec 0 mx) as [_|Hle]; [|lra].
    split.
    + rewrite En, Ex. symmetry. apply div_fin. lra.
    + exists x, mx. repeat split; assumption.
Qed.

(** ** The effect size *)

Section EffectSize.

Context {L : Library}.

Lemma std_short (xs : list Q) : (length xs <= 1)%nat -> std xs = NaN.
Proof.
  intros Hlen. unfold std, Series.var.
  apply Nat.leb_le in Hlen. now rewrite Hlen.
Qed.

Lemma pooled_sum_sq_short (benign attack : list Q) :
  (length benign <= 1)%nat \/ (length attack <= 1)%nat ->
  pooled_sum_sq benign attack = NaN.
Proof.
  intros [H|H]; unfold pooled_sum_sq; rewrite (std_short _ H); simpl.
  - reflexivity.
  - now destruct (Float.sq (std benign)).
Qed.

(** When the divisor of lines 101-103 is 0 the dividend is NaN, and so is
    the quotient in IEEE arithmetic as in the model. *)
Lemma pooled_divisor_zero_nan (benign attack : list Q) :
  pooled_dof benign attack = 0%Z -> pooled_sum_sq benign attack = NaN.
Proof.
  unfold pooled_dof. intros Hz. apply pooled_sum_sq_short. lia.
Qed.

Lemma pooled_std_short (benign attack : list Q) :
  (length benign <= 1)%nat \/ (length attack <= 1)%nat ->
  pooled_std benign attack = NaN.
Proof.
  intros H. unfold pooled_std, pooled_var.
  now rewrite (pooled_sum_sq_short _ _ H).
Qed.

Lemma cohens_d_not_positive (benign attack : list Q) :
  Float.gt0 (pooled_std benign attack) = false -> cohens_d_of benign attack = Fin 0.
Proof.
  intros H. unfold cohens_d_of. now rewrite H.
Qed.

Lemma mean_long (xs : list Q) :
  (1 <= length xs)%nat -> Series.mean xs = Fin (Series.sum xs / Series.count xs).
Proof.
  destruct xs; simpl; [lia | reflexivity].
Qed.

Lemma pooled_std_fin (benign attack : list Q) (p : Q) :
  pooled_std benign attack = Fin p ->
  (2 <= length benign)%nat /\ (2 <= length attack)%nat.
Proof.
  intros E.
  destruct (le_lt_dec (length benign) 1) as [Hb1|Hb2].
  { rewrite pooled_std_short in E by now left. discriminate. }
  destruct (le_lt_dec (length attack) 1) as [Ha1|Ha2].
  { rewrite pooled_std_short in E by now right. discriminate. }
  lia.
Qed.

End EffectSize.

(** *** In double precision *)

Lemma ieee_std_short (xs : list IEEE.double) :
  (length xs <= 1)%nat -> IEEE.std xs = IEEE.nan.
Proof.
  intros Hlen. unfold IEEE.std, IEEE.var.
  apply Nat.leb_le in Hlen. now rewrite Hlen.
Qed.

Lemma ieee_mul_nan (a : IEEE.double) : IEEE.mul a IEEE.nan = IEEE.nan.
Proof. now destruct a. Qed.

Lemma ieee_add_nan (a : IEEE.double) : IEEE.add a IEEE.nan = IEEE.nan.
Proof. now destruct a. Qed.

Lemma ieee_nan_add (a : IEEE.double) : IEEE.add IEEE.nan a = IEEE.nan.
Proof. reflexivity. Qed.

Lemma ieee_nan_div (a : IEEE.double) : IEEE.div IEEE.nan a = IEEE.nan.
Proof. reflexivity. Qed.

Lemma ieee_pooled_std_short (benign attack : list IEEE.double) :
  (length benign <= 1)%nat \/ (length attack <= 1)%nat ->
  IEEE.pooled_std benign attack = IEEE.nan.
Proof.
  intros [H|H]; unfold IEEE.pooled_std; rewrite (ieee_std_short _ H);
    change (IEEE.sq IEEE.nan) with IEEE.nan; rewrite ieee_mul_nan.
  - now rewrite ieee_nan_add, ieee_nan_div.
  - now rewrite ieee_add_nan, ieee_nan_div.
Qed.

(** C4.  A feature whose sampled values are all 0.1, three of them benign
    and two of them attacks, in double precision.  The mean of the three
    benign values is 0.10000000000000002 and not 0.1, so their standard
    deviation is 1.7e-17 and not 0; the pooled standard deviation is
    1.39e-17, which is positive, the test of line 104 succeeds, and the
    effect size recorded for the feature is 1.0000000000000002 and not 0. *)
Theorem constant_feature_effect_size_not_zero :
  let benign_vals := [IEEE.tenth; IEEE.tenth; IEEE.tenth] in
  let attack_vals := [IEEE.tenth; IEEE.tenth] in
  IEEE.tenth = SpecFloat.S754_finite false 7205759403792794 (-56) /\
  IEEE.mean benign_vals = SpecFloat.S754_finite false 7205759403792795 (-56) /\
  IEEE.mean attack_vals = IEEE.tenth /\
  IEEE.std benign_vals = SpecFloat.S754_finite false 5515760546423086 (-108) /\
  IEEE.std attack_vals = IEEE.zero /\
  IEEE.pooled_std benign_vals attack_vals
    = SpecFloat.S754_finite false 9007199254740991 (-109) /\
  IEEE.gt0 (IEEE.pooled_std benign_vals attack_vals) = true /\
  IEEE.cohens_d_of benign_vals attack_vals
    = SpecFloat.S754_finite false 4503599627370497 (-52) /\
  IEEE.cohens_d_of benign_vals attack_vals <> IEEE.zero.
Proof.
  vm_compute. repeat split; try reflexivity. discriminate.
Qed.

(** ** The correlation with the label *)

Lemma correlation_of_raised (L : Library) (xs : list Q) (ys : list cell) :
  spearmanr xs ys = Raised -> correlation_of xs ys = Fin 0.
Proof.
  intros E. unfold correlation_of. now rewrite E.
Qed.

(** C1.  What the script records when [spearmanr] reports an undefined
    correlation the way SciPy does for a constant input, by returning NaN
    without raising: the [except] branch is not taken and the value recorded
    for the feature is NaN, not 0. *)
Theorem correlation_undefined_recorded_nan (L : Library)
    (Xs : Frame Q) (ys : list cell) (feat : string) :
  In feat (columns Xs) ->
  spearmanr (column 0 Xs feat) ys = Returned NaN ->
  correlation_of (column 0 Xs feat) ys = NaN /\
  In (feat, NaN) (correlations Xs ys).
Proof.
  intros Hin E.
  assert (Ec : correlation_of (column 0 Xs feat) ys = NaN).
  { unfold correlation_of. now rewrite E. }
  split; [exact Ec|].
  unfold correlations. apply in_map_iff. exists feat. now rewrite Ec.
Qed.

(** ** The sampler *)

Lemma X_rows (df : Frame cell) : rows (X df) = map (feature_row df) (rows df).
Proof.
  unfold X, select, feature_row. cbn [rows]. now rewrite map_map.
Qed.

Lemma y_rows (df : Frame cell) : y df = map (label_of df) (rows df).
Proof. reflexivity. Qed.

Lemma X_length (df : Frame cell) : length (rows (X df)) = length (rows df).
Proof. now rewrite X_rows, length_map. Qed.

Lemma nth_error_take {A} (dflt : A) (xs : list A) (idx : list nat) (i k : nat) :
  nth_error idx i = Some k -> (k < length xs)%nat ->
  nth_error (take dflt xs idx) i = nth_error xs k.
Proof.
  intros Hi Hk. unfold take.
  rewrite nth_error_map, Hi. cbn [option_map].
  symmetry. now apply nth_error_nth'.
Qed.

Lemma take_length {A} (dflt : A) (xs : list A) (idx : list nat) :
  length (take dflt xs idx) = length idx.
Proof. apply length_map. Qed.

Lemma sample_idx_call (L : Library) (g : rng) (df : Frame cell) :
  sample_idx g df
    = fst (random_choice g (length (rows df)) (Nat.min 50000 (length (rows df)))).
Proof.
  unfold sample_idx, sample_size. now rewrite X_length.
Qed.

(** C5.  For a table of N rows the sampler asks the generator for
    min(50000, N) indices out of N, without replacement and without weights.
    It gets that many distinct row indices; when the generator's draw is
    uniform over its equally likely states, every admissible sample is drawn
    from the same number of states; and for every sampled position i the
    i-th sampled feature row and the i-th sampled label come from the same
    row of the table. *)
Theorem sampler_size_and_alignment (L : Library) (g : rng) (df : Frame cell) :
  choice_contract L ->
  sample_idx g df
    = fst (random_choice g (length (rows df)) (Nat.min 50000 (length (rows df)))) /\
  length (sample_idx g df) = Nat.min 50000 (length (rows df)) /\
  length (rows (X_sample g df)) = Nat.min 50000 (length (rows df)) /\
  length (y_sample g df) = Nat.min 50000 (length (rows df)) /\
  NoDup (sample_idx g df) /\
  (forall states,
     uniform_choice L states (length (rows df)) (Nat.min 50000 (length (rows df))) ->
     forall a b,
       arrangement (length (rows df)) (Nat.min 50000 (length (rows df))) a ->
       arrangement (length (rows df)) (Nat.min 50000 (length (rows df))) b ->
       length (filter (fun g' => list_eqb (sample_idx g' df) a) states)
       = length (filter (fun g' => list_eqb (sample_idx g' df) b) states)) /\
  forall i, (i < Nat.min 50000 (length (rows df)))%nat ->
    exists k row,
      nth_error (sample_idx g df) i = Some k /\
      nth_error (rows df) k = Some row /\
      nth_error (rows (X_sample g df)) i = Some (feature_row df row) /\
      nth_error (y_sample g df) i = Some (label_of df row).
Proof.
  intros Hc.
  pose proof (sample_idx_call L g df) as Eidx.
  destruct (Hc g (length (rows df)) (Nat.min 50000 (length (rows df))))
    as (Hlen & Hnd & Hrange); [apply Nat.le_min_r|].
  rewrite <- Eidx in Hlen, Hnd, Hrange.
  split; [exact Eidx|]. split; [exact Hlen|].
  split; [unfold X_sample, iloc; cbn [rows]; now rewrite take_length|].
  split; [unfold y_sample; now rewrite take_length|].
  split; [exact Hnd|].
  split.
  { intros states Huni a b Ha Hb.
    rewrite (filter_ext (fun g' => list_eqb (sample_idx g' df) a)
               (fun g' => list_eqb (fst (random_choice g' (length (rows df))
                                          (Nat.min 50000 (length (rows df))))) a))
      by (intros g'; now rewrite sample_idx_call).
    rewrite (filter_ext (fun g' => list_eqb (sample_idx g' df) b)
               (fun g' => list_eqb (fst (random_choice g' (length (rows df))
                                          (Nat.min 50000 (length (rows df))))) b))
      by (intros g'; now rewrite sample_idx_call).
    exact (Huni a b Ha Hb). }
  intros i Hi.
  destruct (nth_error (sample_idx g df) i) as [k|] eqn:Ek.
  2:{ apply nth_error_None in Ek. lia. }
  assert (Hk : (k < length (rows df))%nat).
  { rewrite Forall_forall in Hrange. apply Hrange. eapply nth_error_In; eassumption. }
  destruct (nth_error (rows df) k) as [row|] eqn:Er.
  2:{ apply nth_error_None in Er. lia. }
  exists k, row. split; [reflexivity|]. split; [exact Er|]. split.
  - unfold X_sample, iloc. cbn [rows].
    rewrite (nth_error_take [] _ _ i k Ek) by now rewrite X_length.
    rewrite X_rows, nth_error_map, Er. reflexivity.
  - unfold y_sample.
    rewrite (nth_error_take (Val NaN) _ _ i k Ek) by now rewrite y_rows, length_map.
    rewrite y_rows, nth_error_map, Er. reflexivity.
Qed.

(** ** The merge *)

Lemma distinct_NoDup (xs : list string) : distinct xs = true -> NoDup xs.
Proof.
  induction xs as [|x rest IH]; simpl; intros H.
  - constructor.
  - apply andb_true_iff in H. destruct H as [Hx Hrest].
    constructor; [|now apply IH].
    apply negb_true_iff in Hx. now apply mem_not_In.
Qed.

Lemma all_numeric_features_NoDup : NoDup all_numeric_features.
Proof.
  apply distinct_NoDup. vm_compute. reflexivity.
Qed.

Lemma available_features_NoDup (df : Frame cell) : NoDup (available_features df).
Proof.
  apply NoDup_filter, all_numeric_features_NoDup.
Qed.

Lemma available_features_spec (df : Frame cell) (f : string) :
  In f (available_features df) <-> In f all_numeric_features /\ In f (columns df).
Proof.
  unfold available_features. rewrite filter_In, mem_In. reflexivity.
Qed.

Lemma table_keys {A} (names : list string) (values : list A) :
  length values = length names -> map fst (table names values) = names.
Proof.
  unfold table. revert values.
  induction names as [|n names IH]; intros [|v values] Hlen; simpl in *;
    try discriminate; try reflexivity.
  f_equal. apply IH. lia.
Qed.

Lemma enumerate_names {A} (positions : list A) (names : list string) :
  length positions = length names ->
  map (fun p => snd p) (combine positions names) = names.
Proof.
  revert names.
  induction positions as [|i positions IH]; intros [|n names] Hlen; simpl in *;
    try discriminate; try reflexivity.
  f_equal. apply IH. lia.
Qed.

Lemma filter_key_absent {B} (k : string) (right : list (string * B)) :
  ~ In k (map fst right) -> filter (fun r => String.eqb (fst r) k) right = [].
Proof.
  induction right as [|[k' b] right IH]; simpl; intros Hnot; [reflexivity|].
  destruct (String.eqb_spec k' k) as [->|Hne].
  - exfalso. apply Hnot. now left.
  - apply IH. tauto.
Qed.

Lemma filter_key_unique {B} (k : string) (right : list (string * B)) :
  NoDup (map fst right) -> In k (map fst right) ->
  exists b, filter (fun r => String.eqb (fst r) k) right = [(k, b)].
Proof.
  induction right as [|[k' b] right IH]; simpl; intros Hnd Hin; [contradiction|].
  inversion Hnd as [|? ? Hk' Hnd']; subst.
  destruct (String.eqb_spec k' k) as [->|Hne].
  - exists b. now rewrite filter_key_absent.
  - destruct Hin as [E|Hin]; [congruence|]. now apply IH.
Qed.

(** Joining on a key that is unique on the right and always present there
    keeps the left rows, one for one and in order. *)
Lemma merge_keys {A B} (left : list (string * A)) (right : list (string * B)) :
  NoDup (map fst right) -> incl (map fst left) (map fst right) ->
  map fst (merge left right) = map fst left.
Proof.
  intros Hnd. unfold merge.
  induction left as [|[k a] left IH]; simpl; intros Hincl; [reflexivity|].
  destruct (filter_key_unique k right Hnd) as [b Eb].
  { apply Hincl. now left. }
  rewrite Eb. simpl. f_equal. apply IH.
  intros x Hx. apply Hincl. now right.
Qed.

Lemma merge_keys_perm {A B} (names : list string)
    (left : list (string * A)) (right : list (string * B)) :
  NoDup names ->
  Permutation (map fst left) names -> Permutation (map fst right) names ->
  map fst (merge left right) = map fst left.
Proof.
  intros Hnd Hl Hr. apply merge_keys.
  - eapply Permutation_NoDup; [symmetry; exact Hr | exact Hnd].
  - intros x Hx. eapply Permutation_in; [symmetry; exact Hr|].
    eapply Permutation_in; [exact Hl | exact Hx].
Qed.

Section Merge.

Context (L : Library).
Hypothesis Hper : per_feature_contract L.
Hypothesis Hsort : sort_permutes L.

Variable g : rng.
Variable Xs : Frame Q.
Variable ys : list cell.

Lemma sorted_keys {A} (key : string * A -> float) (t : list (string * A)) :
  Permutation (map fst (sort_values_desc _ key t)) (map fst t).
Proof.
  apply Permutation_map. symmetry. apply Hsort.
Qed.

Lemma feature_importance_keys :
  Permutation (map fst (feature_importance g Xs ys)) (columns Xs).
Proof.
  unfold feature_importance. rewrite sorted_keys, table_keys; [reflexivity|].
  apply Hper.
Qed.

Lemma mutual_info_keys :
  Permutation (map fst (mutual_info_table g Xs ys)) (columns Xs).
Proof.
  unfold mutual_info_table. rewrite sorted_keys, table_keys; [reflexivity|].
  apply Hper.
Qed.

Lemma correlations_keys : map fst (correlations Xs ys) = columns Xs.
Proof.
  unfold correlations. rewrite map_map. apply map_id.
Qed.

Lemma correlation_keys :
  Permutation (map fst (correlation_df Xs ys)) (columns Xs).
Proof.
  unfold correlation_df. now rewrite sorted_keys, correlations_keys.
Qed.

Lemma separability_keys :
  Permutation (map fst (separability_df Xs ys)) (columns Xs).
Proof.
  unfold separability_df, separability. rewrite sorted_keys, map_map. simpl.
  now rewrite map_id.
Qed.

Lemma reconstruction_keys : map fst (reconstruction_df g Xs) = columns Xs.
Proof.
  unfold reconstruction_df. cbv zeta. rewrite map_map. cbn [fst].
  apply enumerate_names. now rewrite length_seq.
Qed.

Hypothesis Hnd : NoDup (columns Xs).

Lemma metrics_combined_keys :
  map feature (metrics_combined g Xs ys) = map fst (feature_importance g Xs ys).
Proof.
  unfold metrics_combined. rewrite map_map.
  etransitivity.
  { apply map_ext with (g := fst). intros [f [[[[imp mi] corr] d] err]]. reflexivity. }
  pose proof feature_importance_keys as H1.
  pose proof mutual_info_keys as H2.
  pose proof correlation_keys as H3.
  pose proof separability_keys as H4.
  pose proof reconstruction_keys as H5.
  assert (E1 : map fst (merge (feature_importance g Xs ys) (mutual_info_table g Xs ys))
               = map fst (feature_importance g Xs ys))
    by (now apply (merge_keys_perm (columns Xs))).
  assert (E2 : map fst (merge (merge (feature_importance g Xs ys)
                                     (mutual_info_table g Xs ys))
                              (correlation_df Xs ys))
               = map fst (feature_importance g Xs ys)).
  { rewrite <- E1. apply (merge_keys_perm (columns Xs)); try assumption.
    now rewrite E1. }
  assert (E3 : map fst (merge (merge (merge (feature_importance g Xs ys)
                                            (mutual_info_table g Xs ys))
                                     (correlation_df Xs ys))
                              (separability_df Xs ys))
               = map fst (feature_importance g Xs ys)).
  { rewrite <- E2. apply (merge_keys_perm (columns Xs)); try assumption.
    now rewrite E2. }
  rewrite <- E3. apply (merge_keys_perm (columns Xs)); try assumption.
  - now rewrite E3.
  - now rewrite H5.
Qed.

Lemma metrics_combined_features :
  Permutation (map feature (metrics_combined g Xs ys)) (columns Xs).
Proof.
  rewrite metrics_combined_keys. apply feature_importance_keys.
Qed.

End Merge.

(** C8.  The features the script analyses are distinct; each of the five
    per-feature tables has exactly the features of [available_features], one
    record for each, and so has the merged table: the inner joins on the
    feature name drop no feature and repeat none. *)
Theorem merge_keeps_every_feature (L : Library) (g g' : rng) (df : Frame cell) :
  per_feature_contract L -> sort_permutes L ->
  NoDup (available_features df) /\
  Permutation (map fst (feature_importance g' (X_sample g df) (y_sample g df)))
              (available_features df) /\
  Permutation (map fst (mutual_info_table g' (X_sample g df) (y_sample g df)))
              (available_features df) /\
  Permutation (map fst (correlation_df (X_sample g df) (y_sample g df)))
              (available_features df) /\
  Permutation (map fst (separability_df (X_sample g df) (y_sample g df)))
              (available_features df) /\
  Permutation (map fst (reconstruction_df g' (X_sample g df)))
              (available_features df) /\
  Permutation (map feature (metrics_combined g' (X_sample g df) (y_sample g df)))
              (available_features df).
Proof.
  intros Hper Hsort.
  assert (Ecols : columns (X_sample g df) = available_features df) by reflexivity.
  pose proof (available_features_NoDup df) as Hnd.
  rewrite <- Ecols in *.
  split; [exact Hnd|].
  split; [now apply feature_importance_keys|].
  split; [now apply mutual_info_keys|].
  split; [now apply correlation_keys|].
  split; [now apply separability_keys|].
  split; [now rewrite reconstruction_keys|].
  now apply metrics_combined_features.
Qed.

(** ** Determinism after sampling *)

Section Seeds.

Context (L : Library).
Hypothesis Hseed : seeded_contract L.

Lemma feature_importance_seeded (g g' : rng) (Xs : Frame Q) (ys : list cell) :
  feature_importance g Xs ys = feature_importance g' Xs ys.
Proof.
  destruct Hseed as (Hrf & _ & _). unfold feature_importance.
  now rewrite (Hrf _ _ _ g g').
Qed.

Lemma mutual_info_seeded (g g' : rng) (Xs : Frame Q) (ys : list cell) :
  mutual_info_table g Xs ys = mutual_info_table g' Xs ys.
Proof.
  destruct Hseed as (_ & Hmi & _). unfold mutual_info_table.
  now rewrite (Hmi _ g g').
Qed.

Lemma reconstruction_seeded (g g' : rng) (Xs : Frame Q) :
  reconstruction_df g Xs = reconstruction_df g' Xs.
Proof.
  destruct Hseed as (_ & _ & Hpca). unfold reconstruction_df.
  now rewrite (Hpca _ _ g g').
Qed.

Lemma metrics_combined_seeded (g g' : rng) (Xs : Frame Q) (ys : list cell) :
  metrics_combined g Xs ys = metrics_combined g' Xs ys.
Proof.
  unfold metrics_combined.
  now rewrite (feature_importance_seeded g g'), (mutual_info_seeded g g'),
              (reconstruction_seeded g g').
Qed.

Lemma ranked_seeded (g g' : rng) (Xs : Frame Q) (ys : list cell) :
  ranked g Xs ys = ranked g' Xs ys.
Proof.
  unfold ranked, scored. now rewrite (metrics_combined_seeded g g').
Qed.

End Seeds.

(** C10.  The forest, the mutual-information estimate and the PCA are
    called with [random_state=42]; an estimator that is given a seed does not
    read the process-wide generator, and no other step after sampling reads
    it.  So for a fixed sample the metric tables, the scores and the final
    order are the same whatever the state of the generator. *)
Theorem downstream_deterministic (L : Library) (g g' : rng)
    (Xs : Frame Q) (ys : list cell) :
  seeded_contract L ->
  feature_importance g Xs ys
    = sort_values_desc _ snd
        (table (columns Xs) (rf_feature_importances 100 10 (Some 42%Z) g Xs ys)) /\
  mutual_info_table g Xs ys
    = sort_values_desc _ snd
        (table (columns Xs) (mutual_info_classif (Some 42%Z) g Xs ys)) /\
  feature_importance g Xs ys = feature_importance g' Xs ys /\
  mutual_info_table g Xs ys = mutual_info_table g' Xs ys /\
  reconstruction_df g Xs = reconstruction_df g' Xs /\
  metrics_combined g Xs ys = metrics_combined g' Xs ys /\
  scored g Xs ys = scored g' Xs ys /\
  ranked g Xs ys = ranked g' Xs ys.
Proof.
  intros Hseed.
  split; [reflexivity|]. split; [reflexivity|].
  split; [now apply feature_importance_seeded|].
  split; [now apply mutual_info_seeded|].
  split; [now apply reconstruction_seeded|].
  split; [now apply metrics_combined_seeded|].
  split.
  - unfold scored. now rewrite (metrics_combined_seeded L Hseed g g').
  - now apply ranked_seeded.
Qed.

(** C7, as the script has it.  The script takes no seed: the sample is drawn
    from the process-wide generator in whatever state it is.  Two runs on
    the same table that draw the same sample indices end with the same
    table, in the same order. *)
Theorem run_determined_by_sample (L : Library) (g1 g2 : rng) (df : Frame cell) :
  seeded_contract L ->
  sample_idx g1 df = sample_idx g2 df ->
  run g1 df = run g2 df /\ ranking (run g1 df) = ranking (run g2 df).
Proof.
  intros Hseed Hidx.
  assert (E : run g1 df = run g2 df).
  { unfold run, X_sample, y_sample. rewrite Hidx. now apply ranked_seeded. }
  split; [exact E | now rewrite E].
Qed.

(** ** The stand-in libraries meet the contracts *)

(** *** Drawing without replacement *)

Lemma remove_nth_length {A} (j : nat) (l : list A) :
  (j < length l)%nat -> S (length (Ref.remove_nth j l)) = length l.
Proof.
  revert j. induction l as [|h t IH]; intros [|j] Hj; simpl in *; try lia.
  rewrite IH; lia.
Qed.

Lemma remove_nth_In {A} (j : nat) (l : list A) (x : A) :
  In x (Ref.remove_nth j l) -> In x l.
Proof.
  revert j. induction l as [|h t IH]; intros [|j]; simpl; try tauto.
  intros [->|Hin]; [now left | right; eapply IH; eassumption].
Qed.

Lemma remove_nth_NoDup (j : nat) (l : list nat) :
  (j < length l)%nat -> NoDup l ->
  NoDup (Ref.remove_nth j l) /\ ~ In (nth j l O) (Ref.remove_nth j l).
Proof.
  revert j. induction l as [|h t IH]; intros [|j] Hj Hnd; simpl in *; try lia.
  - inversion Hnd; subst. now split.
  - inversion Hnd as [|? ? Hh Ht]; subst.
    destruct (IH j) as [Hnd' Hnot]; [lia | exact Ht |].
    split.
    + constructor; [|exact Hnd']. intros Hin. apply Hh. eapply remove_nth_In; eassumption.
    + intros [E|Hin]; [|now apply Hnot].
      apply Hh. rewrite E. apply nth_In. lia.
Qed.

Lemma draw_index_lt (g : N) (pool : list nat) :
  pool <> [] -> (N.to_nat (Ref.bits g mod N.of_nat (length pool)) < length pool)%nat.
Proof.
  intros Hne.
  assert (Hlen : (0 < length pool)%nat) by (destruct pool; [congruence | simpl; lia]).
  assert (Hlt : (Ref.bits g mod N.of_nat (length pool) < N.of_nat (length pool))%N)
    by (apply N.mod_lt; lia).
  lia.
Qed.

Lemma draw_step (k : nat) (g : N) (pool : list nat) :
  pool <> [] ->
  Ref.draw (S k) g pool =
    let j := N.to_nat (Ref.bits (Ref.lcg g) mod N.of_nat (length pool)) in
    (nth j pool O :: fst (Ref.draw k (Ref.lcg g) (Ref.remove_nth j pool)),
     snd (Ref.draw k (Ref.lcg g) (Ref.remove_nth j pool))).
Proof.
  intros Hne. destruct pool as [|p pool']; [congruence|].
  cbn [Ref.draw]. cbv zeta.
  now destruct (Ref.draw k _ _).
Qed.

Lemma draw_spec (k : nat) (g : N) (pool : list nat) :
  (k <= length pool)%nat -> NoDup pool ->
  let idx := fst (Ref.draw k g pool) in
  length idx = k /\ NoDup idx /\ Forall (fun i => In i pool) idx.
Proof.
  revert g pool. induction k as [|k IH]; intros g pool Hk Hnd.
  - simpl. repeat split; constructor.
  - assert (Hne : pool <> []) by (destruct pool; [simpl in Hk; lia | discriminate]).
    rewrite (draw_step k g pool Hne). cbv zeta.
    set (j := N.to_nat (Ref.bits (Ref.lcg g) mod N.of_nat (length pool))).
    assert (Hj : (j < length pool)%nat) by (apply draw_index_lt; exact Hne).
    destruct (remove_nth_NoDup j pool Hj Hnd) as [Hnd' Hnot].
    pose proof (remove_nth_length j pool Hj) as Hlen.
    destruct (IH (Ref.lcg g) (Ref.remove_nth j pool)) as (Hl & Hn & Hf);
      [lia | exact Hnd' |].
    cbn [fst]. repeat split.
    + cbn [length]. now rewrite Hl.
    + constructor; [|exact Hn].
      intros Hin. apply Hnot. rewrite Forall_forall in Hf. now apply Hf.
    + constructor; [apply nth_In; exact Hj|].
      eapply Forall_impl; [|exact Hf]. intros a Ha. exact (remove_nth_In _ _ _ Ha).
Qed.

Lemma ref_choice_contract : choice_contract Ref.library.
Proof.
  intros g n k Hk. simpl. unfold Ref.choice.
  destruct (draw_spec k g (seq 0 n)) as (Hl & Hn & Hf).
  - now rewrite length_seq.
  - apply seq_NoDup.
  - repeat split; try assumption.
    eapply Forall_impl; [|exact Hf]. intros i Hi. apply in_seq in Hi. lia.
Qed.

(** *** Sorting by insertion *)

Lemma desc_trans (a b c : float) : desc a b -> desc b c -> desc a c.
Proof.
  destruct a, b, c; simpl; try tauto. intros; lra.
Qed.

Lemma goes_before_desc (strict : bool) (a b : float) :
  Ref.goes_before strict a b = true -> desc a b.
Proof.
  destruct a as [|x], b as [|y], strict; simpl; try tauto; try discriminate;
    destruct (Qlt_le_dec _ _); try discriminate; intros _; lra.
Qed.

Lemma not_goes_before_desc (strict : bool) (a b : float) :
  Ref.goes_before strict a b = false -> desc b a.
Proof.
  destruct a as [|x], b as [|y], strict; simpl; try tauto; try discriminate;
    destruct (Qlt_le_dec _ _); try discriminate; intros _; lra.
Qed.

Lemma insert_perm {A} (strict : bool) (key : A -> float) (x : A) (l : list A) :
  Permutation (x :: l) (Ref.insert strict key x l).
Proof.
  induction l as [|h t IH]; simpl.
  - reflexivity.
  - destruct (Ref.goes_before strict (key x) (key h)).
    + reflexivity.
    + rewrite perm_swap. now apply perm_skip.
Qed.

Lemma insertion_sort_perm (strict : bool) (A : Type) (key : A -> float) (l : list A) :
  Permutation l (Ref.insertion_sort strict A key l).
Proof.
  induction l as [|h t IH]; simpl.
  - reflexivity.
  - rewrite <- insert_perm. now apply perm_skip.
Qed.

Lemma insert_sorted {A} (strict : bool) (key : A -> float) (x : A) (l : list A) :
  StronglySorted (fun a b => desc (key a) (key b)) l ->
  StronglySorted (fun a b => desc (key a) (key b)) (Ref.insert strict key x l).
Proof.
  induction 1 as [|h t Ht IH Hh]; simpl.
  - repeat constructor.
  - destruct (Ref.goes_before strict (key x) (key h)) eqn:E.
    + apply goes_before_desc in E.
      constructor; [constructor; assumption|].
      constructor; [exact E|].
      eapply Forall_impl; [|exact Hh]. intros a Ha. eapply desc_trans; eassumption.
    + apply not_goes_before_desc in E.
      constructor; [exact IH|].
      eapply Permutation_Forall; [apply insert_perm|].
      constructor; assumption.
Qed.

Lemma insertion_sort_sorted (strict : bool) (A : Type) (key : A -> float) (l : list A) :
  StronglySorted (fun a b => desc (key a) (key b)) (Ref.insertion_sort strict A key l).
Proof.
  induction l as [|h t IH]; simpl.
  - constructor.
  - now apply insert_sorted.
Qed.

Lemma ref_sort_permutes : sort_permutes Ref.library.
Proof. intros A key l. apply insertion_sort_perm. Qed.

Lemma ref_sort_sorts : sort_sorts Ref.library.
Proof. intros A key l. apply insertion_sort_sorted. Qed.

(** *** One value per feature, and seeds *)

Lemma ref_per_feature : per_feature_contract Ref.library.
Proof.
  split; simpl; intros.
  - unfold Ref.forest_importances. now rewrite !length_map, length_seq.
  - unfold Ref.no_information. now rewrite length_map.
Qed.

Lemma ref_seeded : seeded_contract Ref.library.
Proof.
  repeat split; simpl; intros; reflexivity.
Qed.

(** *** The ideal generator draws uniformly *)

Lemma remove_length_NoDup (x : nat) (l : list nat) :
  NoDup l -> In x l -> S (length (remove Nat.eq_dec x l)) = length l.
Proof.
  induction 1 as [|y l Hy Hnd IH]; intros Hin; [contradiction|].
  simpl. destruct (Nat.eq_dec x y) as [->|Hne].
  - rewrite notin_remove by exact Hy. reflexivity.
  - simpl. f_equal. apply IH. destruct Hin as [E|Hin]; [congruence | exact Hin].
Qed.

Lemma remove_NoDup (x : nat) (l : list nat) :
  NoDup l -> NoDup (remove Nat.eq_dec x l).
Proof.
  induction 1 as [|y l Hy Hnd IH]; simpl; [constructor|].
  destruct (Nat.eq_dec x y); [exact IH|].
  constructor; [|exact IH].
  intros Hin. apply in_remove in Hin. tauto.
Qed.

Lemma flat_map_length_const {A B} (f : A -> list B) (l : list A) (c : nat) :
  (forall x, In x l -> length (f x) = c) ->
  length (flat_map f l) = (length l * c)%nat.
Proof.
  induction l as [|x l IH]; simpl; intros H; [reflexivity|].
  rewrite length_app, H by now left.
  rewrite IH; [reflexivity|]. intros y Hy. apply H. now right.
Qed.

Lemma orderings_length (f : nat) (l : list nat) :
  NoDup l -> length l = f -> length (Ideal.orderings f l) = fact f.
Proof.
  revert l. induction f as [|f IH]; intros l Hnd Hlen; [reflexivity|].
  cbn [Ideal.orderings fact].
  rewrite (flat_map_length_const _ _ (fact f)).
  - now rewrite Hlen.
  - intros x Hx. rewrite length_map. apply IH.
    + now apply remove_NoDup.
    + pose proof (remove_length_NoDup x l Hnd Hx). lia.
Qed.

Lemma flat_map_filtered {A B} (f : A -> list B) (keep : B -> bool) (xs : list A) :
  flat_map (fun x => filter keep (f x)) xs = filter keep (flat_map f xs).
Proof.
  induction xs as [|x xs IH]; [reflexivity|].
  cbn [flat_map]. now rewrite filter_app, IH.
Qed.

Lemma flat_map_single {A B} (f : A -> list B) (l : list A) (x : A) :
  NoDup l -> In x l -> (forall y, In y l -> y <> x -> f y = []) ->
  length (flat_map f l) = length (f x).
Proof.
  induction 1 as [|y l Hy Hnd IH]; intros Hin Hnil; [contradiction|].
  simpl. rewrite length_app.
  destruct Hin as [->|Hin].
  - rewrite (flat_map_length_const f l 0).
    + lia.
    + intros z Hz. rewrite Hnil; [reflexivity | now right |].
      intros ->. contradiction.
  - rewrite Hnil; [| now left | intros ->; contradiction].
    simpl. apply IH; [exact Hin|].
    intros z Hz Hne. apply Hnil; [now right | exact Hne].
Qed.

Lemma filter_starts_with_cons (x y : nat) (a : list nat) (P : list (list nat)) :
  filter (Ideal.starts_with (x :: a)) (map (cons y) P)
  = if Nat.eq_dec y x then map (cons y) (filter (Ideal.starts_with a) P) else [].
Proof.
  induction P as [|p P IH].
  - simpl. now destruct (Nat.eq_dec y x).
  - cbn [map filter]. rewrite IH. cbn [Ideal.starts_with].
    destruct (Nat.eq_dec y x) as [->|Hne].
    + rewrite Nat.eqb_refl. cbn [andb map]. now destruct (Ideal.starts_with a p).
    + assert ((x =? y)%nat = false) as -> by (apply Nat.eqb_neq; congruence).
      reflexivity.
Qed.

(** Of the orderings of [l], those that begin with the admissible prefix
    [a] are as many as the orderings of what is left. *)
Lemma orderings_with_prefix (a : list nat) :
  forall (f : nat) (l : list nat),
    NoDup l -> length l = f -> NoDup a -> incl a l ->
    length (filter (Ideal.starts_with a) (Ideal.orderings f l)) = fact (f - length a).
Proof.
  induction a as [|x a IH]; intros f l Hnd Hlen Hnda Hincl.
  - cbn [length]. rewrite Nat.sub_0_r.
    rewrite forallb_filter_id; [now apply orderings_length|].
    apply forallb_forall. intros p _. reflexivity.
  - assert (Hx : In x l) by (apply Hincl; now left).
    destruct f as [|f]; [destruct l; [contradiction | discriminate]|].
    cbn [Ideal.orderings]. rewrite <- flat_map_filtered.
    rewrite (flat_map_single _ l x Hnd Hx).
    + rewrite filter_starts_with_cons.
      destruct (Nat.eq_dec x x) as [_|Hne]; [|congruence].
      rewrite length_map. inversion Hnda as [|? ? Hxa Hnda']; subst.
      rewrite IH.
      * reflexivity.
      * now apply remove_NoDup.
      * pose proof (remove_length_NoDup x l Hnd Hx). lia.
      * exact Hnda'.
      * intros z Hz. apply in_in_remove.
        -- intros ->. contradiction.
        -- apply Hincl. now right.
    + intros y _ Hne. rewrite filter_starts_with_cons.
      destruct (Nat.eq_dec y x); [contradiction | reflexivity].
Qed.

Lemma remove_perm (x : nat) (l : list nat) :
  NoDup l -> In x l -> Permutation l (x :: remove Nat.eq_dec x l).
Proof.
  induction 1 as [|y l Hy Hnd IH]; intros Hin; [contradiction|].
  simpl. destruct (Nat.eq_dec x y) as [->|Hne].
  - now rewrite notin_remove by exact Hy.
  - destruct Hin as [E|Hin]; [congruence|].
    rewrite perm_swap. apply perm_skip. now apply IH.
Qed.

(** The orderings of a duplicate-free list are its permutations. *)
Lemma orderings_Permutation (f : nat) (l p : list nat) :
  NoDup l -> length l = f ->
  (In p (Ideal.orderings f l) <-> Permutation l p).
Proof.
  revert l p. induction f as [|f IH]; intros l p Hnd Hlen.
  - destruct l; [|discriminate]. simpl. split.
    + intros [<-|[]]. constructor.
    + intros Hp. apply Permutation_nil in Hp. now left.
  - cbn [Ideal.orderings]. rewrite in_flat_map. split.
    + intros (x & Hx & Hp). apply in_map_iff in Hp. destruct Hp as (p' & <- & Hp').
      rewrite (remove_perm x l Hnd Hx). apply perm_skip.
      apply IH in Hp'; [exact Hp' | now apply remove_NoDup |].
      pose proof (remove_length_NoDup x l Hnd Hx). lia.
    + intros Hp. destruct p as [|x p'].
      { apply Permutation_length in Hp. simpl in Hp. lia. }
      assert (Hx : In x l).
      { eapply Permutation_in; [symmetry; exact Hp | now left]. }
      exists x. split; [exact Hx|]. apply in_map. apply IH.
      * now apply remove_NoDup.
      * pose proof (remove_length_NoDup x l Hnd Hx). lia.
      * apply Permutation_cons_inv with (a := x).
        now rewrite <- (remove_perm x l Hnd Hx).
Qed.

Lemma NoDup_map_cons (x : nat) (P : list (list nat)) :
  NoDup P -> NoDup (map (cons x) P).
Proof.
  induction 1 as [|p P Hp Hnd IH]; simpl; constructor; [|exact IH].
  intros Hin. apply in_map_iff in Hin. destruct Hin as (q & E & Hq).
  injection E as ->. contradiction.
Qed.

Lemma NoDup_flat_map_cons (F : nat -> list (list nat)) (l : list nat) :
  NoDup l -> (forall x, In x l -> NoDup (F x)) ->
  NoDup (flat_map (fun x => map (cons x) (F x)) l).
Proof.
  induction 1 as [|x l Hx Hnd IH]; intros HF; simpl; [constructor|].
  apply NoDup_app.
  - apply NoDup_map_cons, HF. now left.
  - apply IH. intros y Hy. apply HF. now right.
  - intros p Hp Hq.
    apply in_map_iff in Hp. destruct Hp as (p' & <- & _).
    apply in_flat_map in Hq. destruct Hq as (y & Hy & Hq).
    apply in_map_iff in Hq. destruct Hq as (q' & E & _).
    injection E as -> _. contradiction.
Qed.

(** No ordering is listed twice. *)
Lemma orderings_NoDup (f : nat) (l : list nat) :
  NoDup l -> NoDup (Ideal.orderings f l).
Proof.
  revert l. induction f as [|f IH]; intros l Hnd.
  - simpl. repeat constructor. tauto.
  - cbn [Ideal.orderings]. apply NoDup_flat_map_cons; [exact Hnd|].
    intros x _. apply IH. now apply remove_NoDup.
Qed.

Lemma list_eqb_eq (a b : list nat) : list_eqb a b = true <-> a = b.
Proof.
  revert b. induction a as [|x a IH]; intros [|y b]; simpl; split;
    try discriminate; try reflexivity.
  - intros H. apply andb_true_iff in H. destruct H as [Hxy Hab].
    apply Nat.eqb_eq in Hxy. apply IH in Hab. now subst.
  - intros E. injection E as -> ->. rewrite Nat.eqb_refl. simpl. now apply IH.
Qed.

Lemma list_eqb_firstn (a p : list nat) :
  list_eqb (firstn (length a) p) a = Ideal.starts_with a p.
Proof.
  revert p. induction a as [|x a IH]; intros [|y p]; simpl; try reflexivity.
  now rewrite IH, Nat.eqb_sym.
Qed.

Lemma states_Permutation (n : nat) (g : list nat) :
  In g (Ideal.states n) <-> Permutation (seq 0 n) g.
Proof.
  apply orderings_Permutation; [apply seq_NoDup | apply length_seq].
Qed.

Lemma is_ordering_Permutation (g : list nat) (n : nat) :
  Ideal.is_ordering g n = true <-> Permutation (seq 0 n) g.
Proof.
  unfold Ideal.is_ordering. rewrite andb_true_iff, Nat.eqb_eq, forallb_forall. split.
  - intros [Hlen Hall]. apply NoDup_Permutation_bis.
    + apply seq_NoDup.
    + rewrite length_seq. lia.
    + intros i Hi. specialize (Hall i Hi). apply existsb_exists in Hall.
      destruct Hall as (j & Hj & E). apply Nat.eqb_eq in E. now subst.
  - intros Hp. split.
    + apply Permutation_length in Hp. now rewrite length_seq in Hp.
    + intros i Hi. apply existsb_exists. exists i. split.
      * eapply Permutation_in; eassumption.
      * apply Nat.eqb_refl.
Qed.

(** From the ideal generator every admissible draw of [k] out of [n] comes
    from [(n - k)!] of the [n!] states. *)
Lemma ideal_draws (n k : nat) (a : list nat) :
  arrangement n k a -> draws Ideal.library (Ideal.states n) n k a = fact (n - k).
Proof.
  intros (Hlen & Hnd & Hrange). unfold draws. cbn [random_choice Ideal.library].
  rewrite (filter_ext_in _ (Ideal.starts_with a)).
  - unfold Ideal.states. rewrite orderings_with_prefix.
    + now rewrite Hlen.
    + apply seq_NoDup.
    + apply length_seq.
    + exact Hnd.
    + intros i Hi. rewrite Forall_forall in Hrange. apply in_seq.
      specialize (Hrange i Hi). lia.
  - intros g Hg. unfold Ideal.choice. cbn [fst].
    apply states_Permutation, is_ordering_Permutation in Hg. rewrite Hg.
    rewrite <- Hlen. apply list_eqb_firstn.
Qed.

Lemma ideal_states_count (n : nat) :
  length (Ideal.states n) = fact n /\ NoDup (Ideal.states n).
Proof.
  split.
  - apply orderings_length; [apply seq_NoDup | apply length_seq].
  - apply orderings_NoDup, seq_NoDup.
Qed.

Lemma ideal_uniform (n k : nat) : uniform_choice Ideal.library (Ideal.states n) n k.
Proof.
  intros a b Ha Hb. now rewrite !ideal_draws.
Qed.

Lemma ideal_choice_spec (g : list nat) (n k : nat) :
  (k <= n)%nat ->
  length (fst (Ideal.choice g n k)) = k /\ NoDup (fst (Ideal.choice g n k)) /\
  Forall (fun i => (i < n)%nat) (fst (Ideal.choice g n k)).
Proof.
  intros Hk. unfold Ideal.choice. cbn [fst].
  assert (Hp : Permutation (seq 0 n) (if Ideal.is_ordering g n then g else seq 0 n)).
  { destruct (Ideal.is_ordering g n) eqn:E; [now apply is_ordering_Permutation | reflexivity]. }
  set (pop := if Ideal.is_ordering g n then g else seq 0 n) in *.
  assert (Hlen : length pop = n).
  { apply Permutation_length in Hp. now rewrite length_seq in Hp. }
  assert (Hnd : NoDup pop) by (eapply Permutation_NoDup; [exact Hp | apply seq_NoDup]).
  repeat split.
  - rewrite length_firstn. lia.
  - rewrite <- (firstn_skipn k pop) in Hnd. now apply NoDup_app_remove_r in Hnd.
  - apply Forall_forall. intros i Hi.
    assert (Hi' : In i pop).
    { rewrite <- (firstn_skipn k pop). apply in_or_app. now left. }
    apply (Permutation_in _ (Permutation_sym Hp)) in Hi'. apply in_seq in Hi'. lia.
Qed.

Lemma ideal_choice_contract : choice_contract Ideal.library.
Proof.
  intros g n k Hk. exact (ideal_choice_spec g n k Hk).
Qed.

(** ** The statements at concrete inputs *)

Lemma correlation_undefined_recorded_nan_witness :
  @spearmanr Ref.library (column 0 constant_sample "SYN Flag Count") demo_labels
    = Returned NaN /\
  @correlation_of Ref.library (column 0 constant_sample "SYN Flag Count") demo_labels
    = NaN /\
  In ("SYN Flag Count", NaN) (@correlations Ref.library constant_sample demo_labels).
Proof.
  split; [vm_compute; reflexivity|].
  apply (correlation_undefined_recorded_nan Ref.library constant_sample demo_labels).
  - simpl. now left.
  - vm_compute. reflexivity.
Defined.


Lemma norm_columns_in_unit_witness :
  nonneg_column Importance demo_metrics /\
  map base (add_norms demo_metrics) = demo_metrics /\
  (exists mx, col_max Importance demo_metrics = Fin mx /\
     (exists r, In r demo_metrics /\ importance r = Fin mx) /\
     (forall r, In r demo_metrics -> Float.le (importance r) (Fin mx))) /\
  (forall r', In r' (add_norms demo_metrics) -> Float.in_unit (norm Importance r')) /\
  (forall r', In r' (add_norms demo_metrics) ->
     norm Importance r' = (importance (base r') / col_max Importance demo_metrics)%float) /\
  (forall r', In r' (add_norms demo_metrics) -> norm PcaReconstructionError r' = Fin 0).
Proof.
  assert (Hcol : forall m, nonneg_column m demo_metrics).
  { intros []; repeat constructor; simpl; lra. }
  destruct (norm_columns_in_unit Importance demo_metrics (Hcol Importance))
    as (Hbase & Hmax & Hunit & _ & _ & Hquot).
  split; [apply Hcol|]. split; [exact Hbase|].
  split; [apply Hmax; discriminate|]. split; [exact Hunit|]. split.
  - intros r' Hr'. apply Hquot; [|exact Hr'].
    vm_compute. intros H. discriminate H.
  - destruct (norm_columns_in_unit PcaReconstructionError demo_metrics
                (Hcol PcaReconstructionError)) as (_ & _ & _ & Hzero & _).
    apply Hzero. vm_compute. reflexivity.
Defined.

Lemma sampler_size_and_alignment_witness :
  choice_contract Ideal.library /\
  uniform_choice Ideal.library (Ideal.states 6) 6 6 /\
  length (@sample_idx Ideal.library [3; 1; 5; 2; 4; 0]%nat demo_table) = 6%nat /\
  NoDup (@sample_idx Ideal.library [3; 1; 5; 2; 4; 0]%nat demo_table) /\
  length (filter (fun g' => list_eqb (@sample_idx Ideal.library g' demo_table)
                                     [3; 1; 5; 2; 4; 0]%nat) (Ideal.states 6))
  = length (filter (fun g' => list_eqb (@sample_idx Ideal.library g' demo_table)
                                       [0; 1; 2; 3; 4; 5]%nat) (Ideal.states 6)) /\
  exists k row,
    nth_error (@sample_idx Ideal.library [3; 1; 5; 2; 4; 0]%nat demo_table) 2 = Some k /\
    nth_error (rows demo_table) k = Some row /\
    nth_error (rows (@X_sample Ideal.library [3; 1; 5; 2; 4; 0]%nat demo_table)) 2
      = Some (feature_row demo_table row) /\
    nth_error (@y_sample Ideal.library [3; 1; 5; 2; 4; 0]%nat demo_table) 2
      = Some (label_of demo_table row).
Proof.
  split; [exact ideal_choice_contract|].
  split; [exact (ideal_uniform 6 6)|].
  destruct (sampler_size_and_alignment Ideal.library [3; 1; 5; 2; 4; 0]%nat demo_table
              ideal_choice_contract)
    as (_ & Hlen & _ & _ & Hnd & Huniform & Halign).
  split; [exact Hlen|]. split; [exact Hnd|]. split.
  - apply (Huniform (Ideal.states 6) (ideal_uniform 6 6)).
    + repeat split; [repeat constructor; simpl; intuition lia
                    | repeat constructor; simpl; lia].
    + repeat split; [repeat constructor; simpl; intuition lia
                    | repeat constructor; simpl; lia].
  - apply Halign. apply Nat.ltb_lt. vm_compute. reflexivity.
Defined.

(** C7 as stated fails: the same table, analysed twice from two states of
    the generator, gives two samples and two rankings, and the script has no
    parameter that fixes the state. *)
Lemma run_depends_on_generator_state :
  seeded_contract Ref.library /\ choice_contract Ref.library /\
  @sample_idx Ref.library 0%N demo_table <> @sample_idx Ref.library 1%N demo_table /\
  ranking (@run Ref.library 0%N demo_table) <> ranking (@run Ref.library 1%N demo_table).
Proof.
  split; [exact ref_seeded|]. split; [exact ref_choice_contract|].
  split; vm_compute; discriminate.
Qed.

Lemma run_determined_by_sample_witness :
  @sample_idx Ref.library 0%N demo_table = @sample_idx Ref.library 2147483648%N demo_table /\
  @run Ref.library 0%N demo_table = @run Ref.library 2147483648%N demo_table.
Proof.
  assert (Hidx : @sample_idx Ref.library 0%N demo_table
                 = @sample_idx Ref.library 2147483648%N demo_table)
    by (vm_compute; reflexivity).
  split; [exact Hidx|].
  destruct (run_determined_by_sample Ref.library 0%N 2147483648%N demo_table
              ref_seeded Hidx) as [Hrun _].
  exact Hrun.
Defined.

Lemma merge_keeps_every_feature_witness :
  Permutation
    (map feature (@metrics_combined Ref.library 1%N (@X_sample Ref.library 0%N demo_table)
                                    (@y_sample Ref.library 0%N demo_table)))
    (available_features demo_table).
Proof.
  destruct (merge_keeps_every_feature Ref.library 0%N 1%N demo_table
              ref_per_feature ref_sort_permutes) as (_ & _ & _ & _ & _ & _ & Hall).
  exact Hall.
Defined.

Lemma downstream_deterministic_witness :
  @ranked Ref.library 0%N tied_sample demo_labels
    = @ranked Ref.library 1%N tied_sample demo_labels.
Proof.
  destruct (downstream_deterministic Ref.library 0%N 1%N tied_sample demo_labels
              ref_seeded) as (_ & _ & _ & _ & _ & _ & _ & Hranked).
  exact Hranked.
Defined.

(** * Further properties of the script *)

(** ** Sampling a small table *)

Lemma take_seq {A} (dflt : A) (xs : list A) :
  take dflt xs (seq 0 (length xs)) = xs.
Proof.
  unfold take. apply nth_error_ext. intros i.
  rewrite nth_error_map.
  destruct (Nat.lt_ge_cases i (length xs)) as [Hlt|Hge].
  - rewrite nth_error_seq. apply Nat.ltb_lt in Hlt as Hb. rewrite Hb. cbn [option_map].
    symmetry. rewrite Nat.add_0_l. now apply nth_error_nth'.
  - assert (E1 : nth_error (seq 0 (length xs)) i = None)
      by (apply nth_error_None; now rewrite length_seq).
    assert (E2 : nth_error xs i = None) by now apply nth_error_None.
    now rewrite E1, E2.
Qed.

Lemma take_pairs {A B} (da : A) (db : B) (xs : list A) (ys : list B) (idx : list nat) :
  combine (take da xs idx) (take db ys idx)
  = map (fun i => (nth i xs da, nth i ys db)) idx.
Proof.
  unfold take. induction idx as [|i idx IH]; simpl; [reflexivity | now rewrite IH].
Qed.

(** X1.  A table of at most 50000 rows is sampled whole: the indices drawn
    are a rearrangement of all row indices, so the sampled feature rows paired
    with their labels are a rearrangement of the table's rows paired with
    theirs; no row is left out and none is taken twice. *)
Theorem small_table_sampled_whole (L : Library) (g : rng) (df : Frame cell) :
  choice_contract L ->
  (length (rows df) <= 50000)%nat ->
  sample_size df = length (rows df) /\
  Permutation (sample_idx g df) (seq 0 (length (rows df))) /\
  Permutation (combine (rows (X_sample g df)) (y_sample g df))
              (combine (rows (X df)) (y df)).
Proof.
  intros Hc Hsmall.
  assert (Emin : Nat.min 50000 (length (rows df)) = length (rows df))
    by now apply Nat.min_r.
  assert (Esize : sample_size df = length (rows df)).
  { unfold sample_size. now rewrite X_length. }
  pose proof (sample_idx_call L g df) as Eidx. rewrite Emin in Eidx.
  destruct (Hc g (length (rows df)) (length (rows df)) (Nat.le_refl _))
    as (Hlen & Hnd & Hrange).
  rewrite <- Eidx in Hlen, Hnd, Hrange.
  assert (Hperm : Permutation (sample_idx g df) (seq 0 (length (rows df)))).
  { apply NoDup_Permutation_bis.
    - exact Hnd.
    - rewrite length_seq, Hlen. apply Nat.le_refl.
    - intros i Hi. rewrite Forall_forall in Hrange. apply in_seq.
      specialize (Hrange i Hi). lia. }
  split; [exact Esize|]. split; [exact Hperm|].
  unfold X_sample, iloc, y_sample. cbn [rows].
  rewrite take_pairs.
  rewrite (Permutation_map _ Hperm).
  rewrite <- take_pairs.
  rewrite <- (X_length df) at 1. rewrite take_seq.
  assert (Ey : length (rows df) = length (y df)) by now rewrite y_rows, length_map.
  rewrite Ey, take_seq. reflexivity.
Qed.

(** ** The cleaned matrix *)

Lemma nth_index_of {A} (h : string -> A) (dflt : A) (c : string) (names : list string) :
  In c names -> nth (index_of c names) (map h names) dflt = h c.
Proof.
  induction names as [|n names IH]; intros Hin; [contradiction|].
  cbn [index_of map]. destruct (String.eqb_spec c n) as [->|Hne]; [reflexivity|].
  cbn [nth]. apply IH. destruct Hin as [E|Hin]; [congruence | exact Hin].
Qed.

(** After line 60 a cell holds a number. *)
Lemma clean_is_number (c : cell) : replace_inf 0 (fillna 0 c) = Val (Fin (clean c)).
Proof.
  now destruct c as [neg|[|q]].
Qed.

Lemma Forall2_maps {A B C} (P : B -> C -> Prop) (f : A -> B) (h : A -> C) (l : list A) :
  (forall a, In a l -> P (f a) (h a)) -> Forall2 P (map f l) (map h l).
Proof.
  induction l as [|a l IH]; intros H; simpl; constructor.
  - apply H. now left.
  - apply IH. intros a' Ha'. apply H. now right.
Qed.

Lemma label_not_a_feature : ~ In "is_attack" all_numeric_features.
Proof.
  intros H. vm_compute in H.
  repeat (destruct H as [H|H]; [discriminate H|]). exact H.
Qed.

(** X2.  What line 60 leaves in [X].  Its columns are the available
    features, and the label is not one of them.  For an available feature,
    the column of [X] runs along the table's column of that name: where the
    table has a number [X] has that number, and where the table has a
    missing value or an infinity of either sign [X] has 0.  Every row of
    [X] has one value per available feature. *)
Theorem cleaned_columns (df : Frame cell) (feat : string) :
  In feat (available_features df) ->
  columns (X df) = available_features df /\
  ~ In "is_attack" (columns (X df)) /\
  Forall2 (fun c x =>
             match c with
             | Val (Fin q) => x = q
             | Val NaN => x = 0
             | Inf _ => x = 0
             end)
          (column (Val NaN) df feat) (column 0 (X df) feat) /\
  Forall (fun r => length r = length (available_features df)) (rows (X df)).
Proof.
  intros Hin. split; [reflexivity|]. split; [|split].
  - change (columns (X df)) with (available_features df).
    unfold available_features. intros H. apply filter_In in H.
    now apply label_not_a_feature.
  - assert (E : column 0 (X df) feat = map clean (column (Val NaN) df feat)).
    { unfold column. rewrite X_rows, !map_map. apply map_ext. intros r.
      unfold feature_row. rewrite map_map.
      change (columns (X df)) with (available_features df).
      apply (nth_index_of (fun c => clean (nth (index_of c (columns df)) r (Val NaN)))).
      exact Hin. }
    rewrite E. rewrite <- (map_id (column (Val NaN) df feat)) at 1.
    apply Forall2_maps. intros c _. now destruct c as [neg|[|q]].
  - rewrite X_rows. apply Forall_forall. intros r Hr.
    apply in_map_iff in Hr. destruct Hr as (r0 & <- & _).
    unfold feature_row. now rewrite !length_map.
Qed.

(** ** The two classes *)

Lemma column_mask_rows {A} (dflt : A) (mask : list bool) (Xs : Frame A) (feat : string) :
  column dflt (mask_rows mask Xs) feat = mask_select mask (column dflt Xs feat).
Proof.
  unfold column, mask_rows. cbn [rows columns].
  generalize (rows Xs) as rs. induction mask as [|b mask IH]; intros [|r rs];
    try reflexivity.
  cbn [mask_select map]. destruct b; cbn [map]; now rewrite IH.
Qed.

Lemma mask_select_length {A B} (p : B -> bool) (ys : list B) (xs : list A) :
  length xs = length ys ->
  length (mask_select (map p ys) xs) = length (filter p ys).
Proof.
  revert xs. induction ys as [|v ys IH]; intros [|x xs] Hlen; try discriminate;
    try reflexivity.
  cbn [map mask_select filter]. injection Hlen as Hlen.
  destruct (p v); cbn [length]; now rewrite IH.
Qed.

Lemma label_not_both (v : cell) :
  Cell.eqb v 0 = true -> Cell.eqb v 1 = true -> False.
Proof.
  destruct v as [neg|[|x]]; simpl; try discriminate.
  intros H0 H1. apply Qeq_bool_eq in H0. apply Qeq_bool_eq in H1.
  rewrite H0 in H1. discriminate.
Qed.

Lemma two_class_count (ys : list cell) :
  (length (filter (fun v => Cell.eqb v 0) ys) +
   length (filter (fun v => Cell.eqb v 1) ys) <= length ys)%nat /\
  (Forall (fun v => Cell.eqb v 0 = true \/ Cell.eqb v 1 = true) ys ->
   (length (filter (fun v => Cell.eqb v 0) ys) +
    length (filter (fun v => Cell.eqb v 1) ys) = length ys)%nat).
Proof.
  induction ys as [|v ys [IHle IHeq]]; [split; [apply Nat.le_refl | reflexivity]|].
  cbn [filter length].
  destruct (Cell.eqb v 0) eqn:E0, (Cell.eqb v 1) eqn:E1; cbn [length].
  - exfalso. eapply label_not_both; eassumption.
  - split; [lia|]. intros H. inversion H as [|? ? _ Hrest]; subst.
    specialize (IHeq Hrest). lia.
  - split; [lia|]. intros H. inversion H as [|? ? _ Hrest]; subst.
    specialize (IHeq Hrest). lia.
  - split; [lia|]. intros H. inversion H as [|? ? [Hv|Hv] _]; congruence.
Qed.

(** X3.  The values of a feature in the two classes are the feature's column
    filtered by the label: a row with label 0 goes to the benign values, a
    row with label 1 to the attack values, and a row with any other label
    (a missing or an infinite one included) to neither.  The two class
    sizes add up to at most the sample size, and to exactly the sample size
    when every label is 0 or 1. *)
Theorem class_values_split (Xs : Frame Q) (ys : list cell) (feat : string) :
  length (rows Xs) = length ys ->
  class_vals 0 Xs ys feat
    = mask_select (map (fun v => Cell.eqb v 0) ys) (column 0 Xs feat) /\
  class_vals 1 Xs ys feat
    = mask_select (map (fun v => Cell.eqb v 1) ys) (column 0 Xs feat) /\
  length (class_vals 0 Xs ys feat)
    = length (filter (fun v => Cell.eqb v 0) ys) /\
  length (class_vals 1 Xs ys feat)
    = length (filter (fun v => Cell.eqb v 1) ys) /\
  (length (class_vals 0 Xs ys feat) + length (class_vals 1 Xs ys feat)
   <= length ys)%nat /\
  (Forall (fun v => Cell.eqb v 0 = true \/ Cell.eqb v 1 = true) ys ->
   (length (class_vals 0 Xs ys feat) + length (class_vals 1 Xs ys feat)
    = length ys)%nat).
Proof.
  intros Hlen.
  assert (Hcol : length (column 0 Xs feat) = length ys)
    by (unfold column; now rewrite length_map).
  assert (E0 : class_vals 0 Xs ys feat
    = mask_select (map (fun v => Cell.eqb v 0) ys) (column 0 Xs feat))
    by apply column_mask_rows.
  assert (E1 : class_vals 1 Xs ys feat
    = mask_select (map (fun v => Cell.eqb v 1) ys) (column 0 Xs feat))
    by apply column_mask_rows.
  assert (L0 : length (class_vals 0 Xs ys feat)
               = length (filter (fun v => Cell.eqb v 0) ys))
    by (rewrite E0; now apply mask_select_length).
  assert (L1 : length (class_vals 1 Xs ys feat)
               = length (filter (fun v => Cell.eqb v 1) ys))
    by (rewrite E1; now apply mask_select_length).
  destruct (two_class_count ys) as [Hle Heq].
  repeat split; try assumption.
  - rewrite L0, L1. exact Hle.
  - intros Hbin. rewrite L0, L1. now apply Heq.
Qed.

(** ** The sign of the metrics the script computes itself *)

Lemma cohens_d_of_number (L : Library) (benign attack : list Q) :
  exists d, cohens_d_of benign attack = Fin d /\ 0 <= d.
Proof.
  unfold cohens_d_of.
  destruct (Float.gt0 (pooled_std benign attack)) eqn:E.
  - apply gt0_true in E. destruct E as (p & Ep & Hp).
    destruct (pooled_std_fin benign attack p Ep) as [Hb Ha].
    rewrite Ep, (mean_long benign), (mean_long attack) by lia.
    cbn [Float.sub Float.abs Float.lift1 Float.lift2].
    rewrite div_fin by lra.
    eexists. split; [reflexivity|].
    apply Qle_shift_div_l; [exact Hp|].
    rewrite Qmult_0_l. apply Qabs_nonneg.
  - exists 0. split; [reflexivity | lra].
Qed.

(** X4.  The effect size of a feature is always a number, and never a
    negative one: whatever the two classes hold (no value, one value,
    constant values), [cohens_d] is not NaN. *)
Theorem cohens_d_always_a_number (L : Library) (Xs : Frame Q) (ys : list cell) :
  Forall (fun p => exists d, snd p = Fin d /\ 0 <= d) (separability Xs ys).
Proof.
  unfold separability. apply Forall_forall. intros p Hp.
  apply in_map_iff in Hp. destruct Hp as (feat & <- & _). cbn [snd].
  apply cohens_d_of_number.
Qed.

Lemma sq_sign (v : float) : Float.nan_or_nonneg (Float.sq v).
Proof.
  destruct v as [|x]; simpl; [exact I|]. nra.
Qed.

Lemma sum_sign (vs : list float) :
  Forall Float.nan_or_nonneg vs ->
  Float.nan_or_nonneg (fold_right Float.add (Fin 0) vs).
Proof.
  induction 1 as [|v vs Hv _ IH]; simpl; [lra|].
  destruct v as [|x]; [exact I|].
  destruct (fold_right Float.add (Fin 0) vs) as [|s]; simpl in *; [exact I | lra].
Qed.

Lemma mean_sq_diff_sign (a b : list float) : Float.nan_or_nonneg (mean_sq_diff a b).
Proof.
  unfold mean_sq_diff. destruct a as [|v a]; [exact I|].
  set (terms := map (fun p => Float.sq (fst p - snd p)%float) (combine (v :: a) b)).
  assert (Hs : Float.nan_or_nonneg (fold_right Float.add (Fin 0) terms)).
  { apply sum_sign. apply Forall_forall. intros t Ht.
    apply in_map_iff in Ht. destruct Ht as (p & <- & _). apply sq_sign. }
  destruct (fold_right Float.add (Fin 0) terms) as [|s]; [exact I|].
  assert (Hn : 0 < inject_Z (Z.of_nat (length (v :: a)))).
  { change 0 with (inject_Z 0). rewrite <- Zlt_Qlt. cbn [length]. lia. }
  unfold Float.of_nat. rewrite div_fin by lra.
  simpl in Hs |- *. apply Qle_shift_div_l; [exact Hn | lra].
Qed.

Lemma sum_sq_diff_same (l : list Q) :
  exists s,
    fold_right Float.add (Fin 0)
      (map (fun p => Float.sq (fst p - snd p)%float) (combine (map Fin l) (map Fin l)))
    = Fin s /\ s == 0.
Proof.
  induction l as [|x l (s & Es & Hs)]; simpl.
  - exists 0. split; [reflexivity | lra].
  - rewrite Es. simpl. eexists. split; [reflexivity|]. rewrite Hs. ring.
Qed.

Lemma mean_sq_diff_same (qs : list Q) :
  qs <> [] -> (mean_sq_diff (map Fin qs) (map Fin qs) == Fin 0)%float.
Proof.
  intros Hne. unfold mean_sq_diff.
  destruct (sum_sq_diff_same qs) as (s & Es & Hs). rewrite Es.
  destruct qs as [|q qs]; [congruence|]. cbn [map].
  assert (Hn : 0 < inject_Z (Z.of_nat (length (Fin q :: map Fin qs)))).
  { change 0 with (inject_Z 0). rewrite <- Zlt_Qlt. cbn [length]. lia. }
  unfold Float.of_nat. rewrite div_fin by lra.
  simpl. rewrite Hs. field.
  change 0 with (inject_Z 0). rewrite inject_Z_injective. lia.
Qed.

(** X5.  The reconstruction error of a feature is NaN or a number that is
    not negative, and it is 0 when the reconstructed column equals the
    scaled column. *)
Theorem reconstruction_error_sign (L : Library) (g : rng) (Xs : Frame Q)
    (qs : list Q) :
  Forall (fun p => Float.nan_or_nonneg (snd p)) (reconstruction_df g Xs) /\
  (qs <> [] -> (mean_sq_diff (map Fin qs) (map Fin qs) == Fin 0)%float).
Proof.
  split.
  - unfold reconstruction_df. cbv zeta. apply Forall_forall. intros p Hp.
    apply in_map_iff in Hp. destruct Hp as (ip & <- & _). cbn [snd].
    apply mean_sq_diff_sign.
  - apply mean_sq_diff_same.
Qed.

(** ** What a merged row holds *)

Lemma merge_In {A B} (left : list (string * A)) (right : list (string * B))
    (k : string) (a : A) (b : B) :
  In (k, (a, b)) (merge left right) -> In (k, a) left /\ In (k, b) right.
Proof.
  unfold merge. rewrite in_flat_map. intros ([k1 a1] & Hl & Hr).
  apply in_map_iff in Hr. destruct Hr as ([k2 b2] & E & Hf).
  apply filter_In in Hf. destruct Hf as [Hr Hk].
  cbn [fst snd] in *. apply String.eqb_eq in Hk. injection E as <- <- <-.
  subst k2. now split.
Qed.

Lemma sorted_In (L : Library) {A} (key : A -> float) (t : list A) (x : A) :
  sort_permutes L -> In x (sort_values_desc _ key t) -> In x t.
Proof.
  intros Hsort Hin. eapply Permutation_in; [symmetry; apply Hsort | exact Hin].
Qed.

Lemma metrics_combined_In (L : Library) (g : rng) (Xs : Frame Q) (ys : list cell)
    (r : metric_row) :
  sort_permutes L ->
  In r (metrics_combined g Xs ys) ->
  In (feature r, importance r)
     (table (columns Xs) (rf_feature_importances 100 10 (Some 42%Z) g Xs ys)) /\
  In (feature r, mutual_info r)
     (table (columns Xs) (mutual_info_classif (Some 42%Z) g Xs ys)) /\
  In (feature r, correlation r) (correlations Xs ys) /\
  In (feature r, cohens_d r) (separability Xs ys) /\
  In (feature r, pca_reconstruction_error r) (reconstruction_df g Xs).
Proof.
  intros Hsort Hin. unfold metrics_combined in Hin.
  apply in_map_iff in Hin.
  destruct Hin as ([f [[[[imp mi] corr] d] err]] & <- & Hin). cbn [feature importance
    mutual_info correlation cohens_d pca_reconstruction_error].
  apply merge_In in Hin. destruct Hin as [Hin Herr].
  apply merge_In in Hin. destruct Hin as [Hin Hd].
  apply merge_In in Hin. destruct Hin as [Hin Hcorr].
  apply merge_In in Hin. destruct Hin as [Himp Hmi].
  repeat split.
  - now apply (sorted_In L) in Himp.
  - now apply (sorted_In L) in Hmi.
  - now apply (sorted_In L) in Hcorr.
  - now apply (sorted_In L) in Hd.
  - exact Herr.
Qed.

(** X6.  Sorting each table on its own metric before the merge does not mix
    the features up: every merged row holds, for its own feature, the
    importance and the mutual information the estimators returned at that
    feature's column, the correlation and the effect size computed from that
    feature's sampled values, and that feature's reconstruction error. *)
Theorem merged_row_belongs_to_its_feature (L : Library) (g : rng)
    (Xs : Frame Q) (ys : list cell) (r : metric_row) :
  sort_permutes L ->
  In r (metrics_combined g Xs ys) ->
  In (feature r) (columns Xs) /\
  In (feature r, importance r)
     (combine (columns Xs) (rf_feature_importances 100 10 (Some 42%Z) g Xs ys)) /\
  In (feature r, mutual_info r)
     (combine (columns Xs) (mutual_info_classif (Some 42%Z) g Xs ys)) /\
  correlation r = correlation_of (column 0 Xs (feature r)) ys /\
  cohens_d r = cohens_d_of (class_vals 0 Xs ys (feature r))
                           (class_vals 1 Xs ys (feature r)) /\
  In (feature r, pca_reconstruction_error r) (reconstruction_df g Xs).
Proof.
  intros Hsort Hin.
  destruct (metrics_combined_In L g Xs ys r Hsort Hin)
    as (Himp & Hmi & Hcorr & Hd & Herr).
  split; [|split; [exact Himp | split; [exact Hmi | split; [|split; [|exact Herr]]]]].
  - unfold correlations in Hcorr. apply in_map_iff in Hcorr.
    destruct Hcorr as (f & E & Hf). injection E as <- _. exact Hf.
  - unfold correlations in Hcorr. apply in_map_iff in Hcorr.
    destruct Hcorr as (f & E & _). injection E as <- <-. reflexivity.
  - unfold separability in Hd. apply in_map_iff in Hd.
    destruct Hd as (f & E & _). injection E as <- <-. reflexivity.
Qed.

Lemma norm_in_unit (m : metric) (t : list metric_row) (r' : norm_row) :
  nonneg_column m t -> In r' (add_norms t) -> Float.in_unit (norm m r').
Proof.
  intros Hcol Hr'.
  assert (Hne : t <> []).
  { intros ->. destruct Hr'. }
  destruct (normalise_cases m t Hcol Hne) as (mx & Emax & Hmx & _ & Hall).
  apply add_norms_rows in Hr'. destruct Hr' as [Hb Hn].
  destruct (Hall _ Hb) as (x & Ex & Hx).
  rewrite (Hn m), Emax, Ex. unfold normalise, Float.gt0.
  destruct (Qlt_le_dec 0 mx) as [Hlt|Hle].
  - rewrite div_fin by lra. simpl. apply Qdiv_unit; lra.
  - simpl. lra.
Qed.

(** X7.  In every merged table the columns the script computes itself hold
    no negative number: a correlation is NaN or not negative, an effect
    size is a number that is not negative, a reconstruction error is NaN or
    not negative.  So the normalised effect size of every feature is a
    number between 0 and 1, whatever the sample. *)
Theorem script_metrics_never_negative (L : Library) (g : rng)
    (Xs : Frame Q) (ys : list cell) :
  sort_permutes L ->
  (forall r, In r (metrics_combined g Xs ys) ->
     Float.nan_or_nonneg (correlation r) /\ Float.nonneg (cohens_d r) /\
     Float.nan_or_nonneg (pca_reconstruction_error r)) /\
  (forall r, In r (scored g Xs ys) -> Float.in_unit (cohens_d_norm (normed r))).
Proof.
  intros Hsort.
  assert (Hrows : forall r, In r (metrics_combined g Xs ys) ->
     Float.nan_or_nonneg (correlation r) /\ Float.nonneg (cohens_d r) /\
     Float.nan_or_nonneg (pca_reconstruction_error r)).
  { intros r Hin.
    destruct (metrics_combined_In L g Xs ys r Hsort Hin) as (_ & _ & Hcorr & Hd & Herr).
    split; [|split].
    - unfold correlations in Hcorr. apply in_map_iff in Hcorr.
      destruct Hcorr as (f & E & _). injection E as _ <-.
      unfold correlation_of. destruct (spearmanr _ _) as [[|c]|]; simpl;
        [exact I | apply Qabs_nonneg | lra].
    - unfold separability in Hd. apply in_map_iff in Hd.
      destruct Hd as (f & E & _). injection E as _ <-.
      destruct (cohens_d_of_number L (class_vals 0 Xs ys f) (class_vals 1 Xs ys f))
        as (d & -> & Hd0). exact Hd0.
    - unfold reconstruction_df in Herr. cbv zeta in Herr. apply in_map_iff in Herr.
      destruct Herr as (ip & E & _). injection E as _ <-. apply mean_sq_diff_sign. }
  split; [exact Hrows|].
  intros r Hin. unfold scored, add_scores in Hin. apply in_map_iff in Hin.
  destruct Hin as (n & <- & Hn). cbn [normed].
  apply (norm_in_unit CohensD (metrics_combined g Xs ys) n); [|exact Hn].
  unfold nonneg_column. apply Forall_forall. intros v Hv.
  apply in_map_iff in Hv. destruct Hv as (r & <- & Hr). now apply Hrows.
Qed.

(** ** Normalisation and order *)

(** X8.  Dividing by the column maximum keeps the order of the features and
    gives the best one exactly 1: in a column of numbers that are not
    negative and whose maximum is positive, a row that attains the maximum
    has normalised value 1, and a row whose raw value is at most another
    row's has a normalised value at most the other's. *)
Theorem normalisation_keeps_order (m : metric) (t : list metric_row) :
  nonneg_column m t ->
  Float.gt0 (col_max m t) = true ->
  (exists r', In r' (add_norms t) /\ raw m (base r') = col_max m t /\
              (norm m r' == Fin 1)%float) /\
  (forall r1 r2, In r1 (add_norms t) -> In r2 (add_norms t) ->
     Float.le (raw m (base r1)) (raw m (base r2)) ->
     Float.le (norm m r1) (norm m r2)).
Proof.
  intros Hcol Hpos.
  assert (Hne : t <> []).
  { intros ->. discriminate Hpos. }
  destruct (normalise_cases m t Hcol Hne) as (mx & Emax & Hmx & (rmax & Hrmax & Ermax) & Hall).
  rewrite Emax in Hpos. apply gt0_true in Hpos. destruct Hpos as (mx' & E & Hlt).
  injection E as <-.
  assert (Hnorm : forall r', In r' (add_norms t) ->
            exists x, raw m (base r') = Fin x /\ norm m r' = Fin (x / mx)).
  { intros r' Hr'. apply add_norms_rows in Hr'. destruct Hr' as [Hb Hn].
    destruct (Hall _ Hb) as (x & Ex & _). exists x. split; [exact Ex|].
    rewrite (Hn m), Emax, Ex. unfold normalise, Float.gt0.
    destruct (Qlt_le_dec 0 mx) as [_|Hle]; [apply div_fin; lra | lra]. }
  split.
  - assert (Hex : exists r', In r' (add_norms t) /\ base r' = rmax).
    { pose proof (add_norms_base t) as Hbase.
      rewrite <- Hbase in Hrmax. apply in_map_iff in Hrmax.
      destruct Hrmax as (r' & Eb & Hr'). now exists r'. }
    destruct Hex as (r' & Hr' & Eb). exists r'. split; [exact Hr'|].
    rewrite Emax, Eb. split; [exact Ermax|].
    destruct (Hnorm _ Hr') as (x & Ex & ->). rewrite Eb, Ermax in Ex.
    injection Ex as <-. simpl. field. lra.
  - intros r1 r2 H1 H2 Hle.
    destruct (Hnorm _ H1) as (x1 & E1 & ->). destruct (Hnorm _ H2) as (x2 & E2 & ->).
    rewrite E1, E2 in Hle. simpl in Hle |- *.
    unfold Qdiv. apply Qmult_le_compat_r; [exact Hle|].
    apply Qinv_le_0_compat. lra.
Qed.

(** ** Undefined values on their way to the ranking *)




Lemma sorted_precedes {A} (R : A -> A -> Prop) (a b : A) (l : list A) :
  StronglySorted R l -> precedes a b l -> R a b.
Proof.
  intros Hs (l1 & l2 & l3 & ->).
  induction l1 as [|x l1 IH]; cbn [app] in Hs.
  - apply StronglySorted_inv in Hs. destruct Hs as [_ Hall].
    rewrite Forall_forall in Hall. apply Hall, in_elt.
  - apply StronglySorted_inv in Hs. destruct Hs as [Hs _]. now apply IH.
Qed.


(** ** The weights of the combined score *)


(** ** The group of an analysed feature *)

Lemma group_lookup_listed (groups : catalog) (feature : string) :
  (exists p, In p groups /\ In feature (snd p)) ->
  exists fs, In (group_lookup groups feature, fs) groups /\ In feature fs.
Proof.
  intros (p & Hp & Hf).
  destruct (group_lookup_spec groups feature)
    as [(pre & fs & post & E & Hin & _) | [Hnone _]].
  - exists fs. split; [|exact Hin]. rewrite E at 2. apply in_elt.
  - exfalso. unfold unlisted in Hnone. rewrite Forall_forall in Hnone.
    exact (Hnone p Hp Hf).
Qed.

Lemma all_numeric_features_listed (feature : string) :
  In feature all_numeric_features ->
  exists p, In p FEATURE_GROUPS /\ In feature (snd p).
Proof.
  unfold all_numeric_features. rewrite in_flat_map. trivial.
Qed.

Lemma no_group_named_unknown (name : string) (fs : list string) :
  In (name, fs) FEATURE_GROUPS -> name <> "Unknown".
Proof.
  intros Hin.
  assert (Hall : forallb (fun p => negb (String.eqb (fst p) "Unknown")) FEATURE_GROUPS
                 = true) by (vm_compute; reflexivity).
  rewrite forallb_forall in Hall. specialize (Hall _ Hin). cbn [fst] in Hall.
  apply negb_true_iff, String.eqb_neq in Hall. exact Hall.
Qed.

Lemma scored_rows (L : Library) (g : rng) (Xs : Frame Q) (ys : list cell)
    (r : scored_row) :
  In r (scored g Xs ys) ->
  In (base (normed r)) (metrics_combined g Xs ys) /\
  feature_group r = get_feature_group (feature (base (normed r))).
Proof.
  unfold scored, add_scores. intros Hin. apply in_map_iff in Hin.
  destruct Hin as (n & <- & Hn). cbn [normed feature_group].
  split; [|reflexivity]. now apply add_norms_rows in Hn.
Qed.

(** X11.  Every feature in the final table is a catalog feature that the
    input table has, and its feature_group is the name of a catalog group
    that lists it: the "Unknown" answer of the lookup never reaches the
    report. *)
Theorem feature_group_never_unknown (L : Library) (g : rng) (df : Frame cell)
    (r : scored_row) :
  sort_permutes L ->
  In r (run g df) ->
  In (feature (base (normed r))) (columns df) /\
  feature_group r <> "Unknown" /\
  exists fs, In (feature_group r, fs) FEATURE_GROUPS /\
             In (feature (base (normed r))) fs.
Proof.
  intros Hsort Hin. unfold run, ranked in Hin.
  apply (sorted_In L) in Hin; [|exact Hsort].
  apply scored_rows in Hin. destruct Hin as [Hbase Egroup].
  apply (metrics_combined_In L) in Hbase; [|exact Hsort].
  destruct Hbase as (Himp & _). apply in_combine_l in Himp.
  change (columns (X_sample g df)) with (available_features df) in Himp.
  apply available_features_spec in Himp. destruct Himp as [Hcat Hcol].
  destruct (group_lookup_listed FEATURE_GROUPS _ (all_numeric_features_listed _ Hcat))
    as (fs & Hg & Hf).
  fold (get_feature_group (feature (base (normed r)))) in Hg.
  rewrite <- Egroup in Hg.
  split; [exact Hcol|]. split.
  - eapply no_group_named_unknown; eassumption.
  - now exists fs.
Qed.

(** ** The listing of the best features *)

Lemma sorted_split {A} (R : A -> A -> Prop) (l1 l2 : list A) (a b : A) :
  StronglySorted R (l1 ++ l2) -> In a l1 -> In b l2 -> R a b.
Proof.
  intros Hs Ha Hb. apply (sorted_precedes R a b (l1 ++ l2) Hs).
  apply in_split in Ha. destruct Ha as (u1 & u2 & ->).
  apply in_split in Hb. destruct Hb as (v1 & v2 & ->).
  exists u1, (u2 ++ v1), v2. now rewrite <- !app_assoc.
Qed.

(** X12.  [head(k)] of the final table holds the first min(k, n) rows, and
    no row left out of it outranks a row in it: the combined_score of a
    listed row is at least that of every row left out (an undefined score
    counting as the lowest).  The printed top 20 are the first 20 features
    of the ranking. *)
Theorem top_rows_outrank_the_rest (L : Library) (g : rng)
    (Xs : Frame Q) (ys : list cell) (k : nat) :
  sort_sorts L ->
  length (head k (ranked g Xs ys)) = Nat.min k (length (ranked g Xs ys)) /\
  (forall a b, In a (head k (ranked g Xs ys)) -> In b (skipn k (ranked g Xs ys)) ->
     desc (combined_score a) (combined_score b)) /\
  map (fun x => fst (fst (fst (fst x)))) (top_20 (ranked g Xs ys))
    = firstn 20 (ranking (ranked g Xs ys)).
Proof.
  intros Hsorted. split; [apply length_firstn|]. split.
  - intros a b Ha Hb.
    apply (sorted_split (fun a b => desc (combined_score a) (combined_score b))
                        (head k (ranked g Xs ys)) (skipn k (ranked g Xs ys)));
      [|exact Ha | exact Hb].
    unfold head. rewrite firstn_skipn. apply Hsorted.
  - unfold top_20, head, ranking. rewrite map_map. cbn [fst].
    symmetry. apply firstn_map.
Qed.

(** ** The per-group statistics *)

Lemma insert_key_perm (k : string) (ks : list string) :
  Permutation (k :: ks) (insert_key k ks).
Proof.
  induction ks as [|h ks IH]; cbn [insert_key]; [reflexivity|].
  destruct (String.leb k h); [reflexivity|].
  rewrite perm_swap. now apply perm_skip.
Qed.

Lemma group_keys_perm (t : list scored_row) :
  Permutation (nodup string_dec (map feature_group t)) (group_keys t).
Proof.
  unfold group_keys. induction (nodup string_dec (map feature_group t)) as [|k ks IH];
    cbn [fold_right]; [reflexivity|].
  rewrite <- insert_key_perm. now apply perm_skip.
Qed.

Lemma group_keys_NoDup (t : list scored_row) : NoDup (group_keys t).
Proof.
  eapply Permutation_NoDup; [apply group_keys_perm | apply NoDup_nodup].
Qed.

Lemma group_keys_In (t : list scored_row) (k : string) :
  In k (group_keys t) <-> exists r, In r t /\ feature_group r = k.
Proof.
  split.
  - intros Hin. apply (Permutation_in _ (Permutation_sym (group_keys_perm t))) in Hin.
    apply nodup_In, in_map_iff in Hin. destruct Hin as (r & E & Hr). now exists r.
  - intros (r & Hr & <-). apply (Permutation_in _ (group_keys_perm t)).
    apply nodup_In. now apply in_map.
Qed.

Lemma list_sum_cons (x : nat) (l : list nat) : list_sum (x :: l) = (x + list_sum l)%nat.
Proof. reflexivity. Qed.

Lemma indicator_zero (k : string) (keys : list string) :
  ~ In k keys ->
  list_sum (map (fun k' => if String.eqb k k' then 1%nat else 0%nat) keys) = 0%nat.
Proof.
  induction keys as [|h keys IH]; intros Hnot; [reflexivity|].
  cbn [map]. rewrite list_sum_cons.
  destruct (String.eqb_spec k h) as [E|_].
  - exfalso. apply Hnot. now left.
  - rewrite IH; [reflexivity|]. intros Hin. apply Hnot. now right.
Qed.

Lemma indicator_sum (k : string) (keys : list string) :
  NoDup keys -> In k keys ->
  list_sum (map (fun k' => if String.eqb k k' then 1%nat else 0%nat) keys) = 1%nat.
Proof.
  induction 1 as [|h keys Hh Hnd IH]; intros Hin; [contradiction|].
  cbn [map]. rewrite list_sum_cons.
  destruct (String.eqb_spec k h) as [E|Hne].
  - subst h. now rewrite indicator_zero.
  - destruct Hin as [E|Hin]; [congruence|]. now rewrite IH.
Qed.

Lemma list_sum_plus {A} (f h : A -> nat) (l : list A) :
  list_sum (map (fun x => (f x + h x)%nat) l)
  = (list_sum (map f l) + list_sum (map h l))%nat.
Proof.
  induction l as [|x l IH]; [reflexivity|].
  cbn [map]. rewrite !list_sum_cons, IH. lia.
Qed.

(** Over distinct keys that cover the table, the group sizes add up to the
    number of rows. *)
Lemma group_sizes_sum (keys : list string) (t : list scored_row) :
  NoDup keys -> (forall r, In r t -> In (feature_group r) keys) ->
  list_sum (map (fun k => length (group_members k t)) keys) = length t.
Proof.
  intros Hnd. induction t as [|r t IH]; intros Hcover.
  - cbn [group_members filter length]. clear Hnd Hcover.
    induction keys as [|k keys IHk]; [reflexivity|].
    cbn [map]. now rewrite list_sum_cons, IHk.
  - rewrite (map_ext _ (fun k => ((if String.eqb (feature_group r) k then 1 else 0)
                                  + length (group_members k t))%nat)).
    + rewrite list_sum_plus, indicator_sum, IH; [reflexivity | | exact Hnd |].
      * intros r' Hr'. apply Hcover. now right.
      * apply Hcover. now left.
    + intros k. unfold group_members. cbn [filter].
      now destruct (String.eqb (feature_group r) k).
Qed.

Lemma list_sum_perm (l l' : list nat) : Permutation l l' -> list_sum l = list_sum l'.
Proof.
  induction 1; rewrite ?list_sum_cons; lia.
Qed.

(** X13.  The per-group statistics have one row for every feature_group
    that occurs in the table and no other, each group once; a group's
    num_features is the number of the table's rows of that group, which is
    at least 1, and the num_features of all groups add up to the number of
    features in the table. *)
Theorem group_counts_add_up (L : Library) (t : list scored_row) :
  sort_permutes L ->
  NoDup (map group (group_stats t)) /\
  (forall k, In k (map group (group_stats t)) <->
             exists r, In r t /\ feature_group r = k) /\
  (forall gr, In gr (group_stats t) ->
     num_features gr = length (group_members (group gr) t) /\
     (1 <= num_features gr)%nat) /\
  list_sum (map num_features (group_stats t)) = length t.
Proof.
  intros Hsort.
  assert (Hperm : Permutation (group_agg t) (group_stats t)) by apply Hsort.
  assert (Hkeys : map group (group_agg t) = group_keys t).
  { unfold group_agg. rewrite map_map. cbn [group]. apply map_id. }
  split; [|split; [|split]].
  - eapply Permutation_NoDup; [apply Permutation_map; exact Hperm|].
    rewrite Hkeys. apply group_keys_NoDup.
  - intros k. rewrite <- group_keys_In, <- Hkeys. split; intros Hin.
    + eapply Permutation_in; [apply Permutation_map; symmetry; exact Hperm | exact Hin].
    + eapply Permutation_in; [apply Permutation_map; exact Hperm | exact Hin].
  - intros gr Hgr.
    apply (Permutation_in _ (Permutation_sym Hperm)) in Hgr.
    unfold group_agg in Hgr. apply in_map_iff in Hgr.
    destruct Hgr as (k & <- & Hk). cbn [num_features group].
    split; [reflexivity|].
    apply group_keys_In in Hk. destruct Hk as (r & Hr & Er).
    assert (Hin : In r (group_members k t)).
    { unfold group_members. apply filter_In. split; [exact Hr|].
      now apply String.eqb_eq. }
    destruct (group_members k t); [contradiction | cbn [length]; lia].
  - rewrite <- (list_sum_perm _ _ (Permutation_map num_features Hperm)).
    unfold group_agg. rewrite map_map. cbn [num_features].
    apply group_sizes_sum; [apply group_keys_NoDup|].
    intros r Hr. apply group_keys_In. now exists r.
Qed.

Lemma numbers_in_unit (vs : list float) :
  Forall (fun v => v = NaN \/ Float.in_unit v) vs ->
  Forall (fun x => 0 <= x <= 1) (Series.numbers vs).
Proof.
  induction 1 as [|v vs Hv _ IH]; cbn [Series.numbers]; [constructor|].
  destruct v as [|x]; [exact IH|].
  constructor; [|exact IH]. destruct Hv as [Hv|Hv]; [discriminate | exact Hv].
Qed.

Lemma sum_bounds (xs : list Q) :
  Forall (fun x => 0 <= x <= 1) xs -> 0 <= Series.sum xs <= Series.count xs.
Proof.
  unfold Series.count. induction 1 as [|x xs Hx _ IH].
  - cbn. change (inject_Z 0) with 0. lra.
  - cbn [Series.sum fold_right length]. fold (Series.sum xs).
    rewrite Nat2Z.inj_succ. unfold Z.succ. rewrite inject_Z_plus.
    change (inject_Z 1) with 1. lra.
Qed.

Lemma mean_skipna_in_unit (vs : list float) :
  Forall (fun v => v = NaN \/ Float.in_unit v) vs ->
  (Series.numbers vs = [] /\ Series.mean_skipna vs = NaN) \/
  (Series.numbers vs <> [] /\ Float.in_unit (Series.mean_skipna vs)).
Proof.
  intros Hvs. apply numbers_in_unit in Hvs. unfold Series.mean_skipna.
  destruct (Series.numbers vs) as [|x xs] eqn:E; [left; now split|].
  right. split; [discriminate|].
  rewrite mean_long by (cbn [length]; lia).
  pose proof (sum_bounds _ Hvs) as Hb.
  assert (Hn : 0 < Series.count (x :: xs)).
  { unfold Series.count. change 0 with (inject_Z 0). rewrite <- Zlt_Qlt.
    cbn [length]. lia. }
  unfold Float.in_unit. apply Qdiv_unit; [apply Hb | apply Hb | exact Hn].
Qed.

(** X14.  Averages of scores stay in range.  When every combined_score of
    the table is NaN or between 0 and 1, the mean combined_score of every
    group is NaN or between 0 and 1; it is NaN exactly when no member of
    the group has a defined score, since the mean skips the undefined
    ones. *)
Theorem group_means_in_unit (L : Library) (t : list scored_row) (gr : group_row) :
  sort_permutes L ->
  Forall (fun r => combined_score r = NaN \/ Float.in_unit (combined_score r)) t ->
  In gr (group_stats t) ->
  (Series.numbers (map combined_score (group_members (group gr) t)) = [] /\
   mean_combined_score gr = NaN) \/
  (Series.numbers (map combined_score (group_members (group gr) t)) <> [] /\
   Float.in_unit (mean_combined_score gr)).
Proof.
  intros Hsort Hall Hgr.
  apply (sorted_In L) in Hgr; [|exact Hsort].
  unfold group_agg in Hgr. apply in_map_iff in Hgr.
  destruct Hgr as (k & <- & _). cbn [group mean_combined_score].
  apply mean_skipna_in_unit.
  rewrite Forall_map. unfold group_members.
  rewrite Forall_forall in Hall |- *. intros r Hr.
  apply filter_In in Hr. now apply Hall.
Qed.

(** ** Swapping the two classes *)

Lemma Qplus_swap (x y : Q) : Qplus x y = Qplus y x.
Proof.
  destruct x as [xn xd], y as [yn yd]. unfold Qplus. cbn [Qnum Qden].
  f_equal; [lia | apply Pos.mul_comm].
Qed.

Lemma Qabs_minus_swap (x y : Q) : Qabs (x - y) = Qabs (y - x).
Proof.
  destruct x as [xn xd], y as [yn yd].
  unfold Qabs, Qminus, Qplus, Qopp. cbn [Qnum Qden].
  f_equal; [lia | apply Pos.mul_comm].
Qed.

Lemma float_add_swap (a b : float) : (a + b)%float = (b + a)%float.
Proof.
  destruct a, b; simpl; try reflexivity. f_equal. apply Qplus_swap.
Qed.

Lemma pooled_std_swap (L : Library) (benign attack : list Q) :
  pooled_std benign attack = pooled_std attack benign.
Proof.
  unfold pooled_std, pooled_var, pooled_sum_sq, pooled_dof.
  rewrite float_add_swap. do 3 f_equal. lia.
Qed.

(** X15.  The effect size does not depend on which class is called benign:
    computed with the two classes swapped it is the same value. *)
Theorem cohens_d_symmetric (L : Library) (benign attack : list Q) :
  cohens_d_of benign attack = cohens_d_of attack benign.
Proof.
  unfold cohens_d_of. rewrite (pooled_std_swap L benign attack).
  destruct (Float.gt0 (pooled_std attack benign)); [|reflexivity].
  f_equal.
  destruct (Series.mean benign) as [|mb], (Series.mean attack) as [|ma];
    simpl; try reflexivity.
  f_equal. apply Qabs_minus_swap.
Qed.

(** ** A class of at most one member *)

(** X17.  A feature that has at most one value in one of the two classes
    gets effect size 0, in exact arithmetic and in double precision alike:
    the standard deviation of fewer than two values is NaN, so the pooled
    standard deviation is NaN, and the test of line 104 fails on NaN. *)
Theorem effect_size_short_class_zero (L : Library) :
  (forall benign attack : list Q,
     (length benign <= 1)%nat \/ (length attack <= 1)%nat ->
     pooled_std benign attack = NaN /\ cohens_d_of benign attack = Fin 0) /\
  (forall benign attack : list IEEE.double,
     (length benign <= 1)%nat \/ (length attack <= 1)%nat ->
     IEEE.pooled_std benign attack = IEEE.nan /\
     IEEE.cohens_d_of benign attack = IEEE.zero).
Proof.
  split; intros benign attack Hshort.
  - pose proof (pooled_std_short benign attack Hshort) as E.
    split; [exact E|]. apply cohens_d_not_positive. now rewrite E.
  - pose proof (ieee_pooled_std_short benign attack Hshort) as E.
    split; [exact E|]. unfold IEEE.cohens_d_of. now rewrite E.
Qed.

(** ** The final table *)

(** X16.  The final table has exactly one row for every available feature:
    normalising, scoring, grouping and sorting neither drop nor repeat a
    row of the merged table. *)
Theorem final_table_one_row_per_feature (L : Library) (g : rng) (df : Frame cell) :
  per_feature_contract L -> sort_permutes L ->
  Permutation (ranking (run g df)) (available_features df) /\
  length (run g df) = length (available_features df).
Proof.
  intros Hper Hsort.
  assert (Hperm : Permutation (ranking (run g df)) (available_features df)).
  { unfold run, ranked, ranking.
    rewrite <- (Permutation_map _ (Hsort _ combined_score _)).
    unfold scored, add_scores. rewrite map_map. cbn [normed].
    rewrite <- (map_map base feature), add_norms_base.
    apply (metrics_combined_features L Hper Hsort).
    apply available_features_NoDup. }
  split; [exact Hperm|].
  apply Permutation_length in Hperm. unfold ranking in Hperm.
  now rewrite length_map in Hperm.
Qed.

(** ** The further properties at concrete inputs *)

Lemma small_table_sampled_whole_witness :
  (length (rows demo_table) <= 50000)%nat /\
  Permutation (@sample_idx Ref.library 0%N demo_table) (seq 0 6) /\
  Permutation (combine (rows (@X_sample Ref.library 0%N demo_table))
                       (@y_sample Ref.library 0%N demo_table))
              (combine (rows (X demo_table)) (y demo_table)).
Proof.
  assert (Hsmall : (length (rows demo_table) <= 50000)%nat)
    by (apply Nat.leb_le; vm_compute; reflexivity).
  split; [exact Hsmall|].
  destruct (small_table_sampled_whole Ref.library 0%N demo_table
              ref_choice_contract Hsmall) as (_ & Hidx & Hrows).
  split; [exact Hidx | exact Hrows].
Defined.

Lemma cleaned_columns_witness :
  In "Flow Bytes/s" (available_features holed_table) /\
  columns (X holed_table) = ["Flow Duration"; "Flow Bytes/s"] /\
  ~ In "is_attack" (columns (X holed_table)) /\
  Forall2 (fun c x =>
             match c with
             | Val (Fin q) => x = q
             | Val NaN => x = 0
             | Inf _ => x = 0
             end)
          [Val (Fin 1); Inf false; Inf true; Val (Fin 3)] [1; 0; 0; 3] /\
  Forall (fun r => length r = 2%nat) (rows (X holed_table)).
Proof.
  assert (Hin : In "Flow Bytes/s" (available_features holed_table))
    by (vm_compute; right; now left).
  split; [exact Hin|].
  destruct (cleaned_columns holed_table "Flow Bytes/s" Hin)
    as (Hcols & Hlabel & Hcol & Hrows).
  split; [rewrite Hcols; reflexivity|]. split; [exact Hlabel|].
  split; [exact Hcol | exact Hrows].
Defined.

Lemma class_values_split_witness :
  class_vals 0 tied_sample demo_labels "Flow Duration" = [1; 2] /\
  class_vals 1 tied_sample demo_labels "Flow Duration" = [4; 7] /\
  (length (class_vals 0 tied_sample demo_labels "Flow Duration") +
   length (class_vals 1 tied_sample demo_labels "Flow Duration")
   = length demo_labels)%nat.
Proof.
  destruct (class_values_split tied_sample demo_labels "Flow Duration" eq_refl)
    as (E0 & E1 & _ & _ & _ & Hall).
  split; [rewrite E0; reflexivity|]. split; [rewrite E1; reflexivity|].
  apply Hall. unfold demo_labels. repeat constructor; vm_compute; tauto.
Defined.

Lemma reconstruction_error_sign_witness :
  ([3; 5] : list Q) <> [] /\
  (mean_sq_diff (map Fin [3; 5]) (map Fin [3; 5]) == Fin 0)%float.
Proof.
  assert (Hne : ([3; 5] : list Q) <> []) by discriminate.
  split; [exact Hne|].
  destruct (reconstruction_error_sign Ref.library 0%N tied_sample [3; 5]) as [_ Hsame].
  exact (Hsame Hne).
Defined.

Lemma merged_row_belongs_to_its_feature_witness :
  Forall (fun r =>
            In (feature r) (columns mixed_sample) /\
            correlation r
              = @correlation_of Ref.library (column 0 mixed_sample (feature r)) demo_labels)
         (@metrics_combined Ref.library 0%N mixed_sample demo_labels).
Proof.
  apply Forall_forall. intros r Hr.
  destruct (merged_row_belongs_to_its_feature Ref.library 0%N mixed_sample demo_labels r
              ref_sort_permutes Hr) as (Hf & _ & _ & Hcorr & _).
  split; [exact Hf | exact Hcorr].
Defined.

Lemma script_metrics_never_negative_witness :
  Forall (fun r => Float.in_unit (cohens_d_norm (normed r)))
         (@scored Ref.library 0%N mixed_sample demo_labels).
Proof.
  apply Forall_forall.
  destruct (script_metrics_never_negative Ref.library 0%N mixed_sample demo_labels
              ref_sort_permutes) as [_ Hunit].
  exact Hunit.
Defined.

Lemma normalisation_keeps_order_witness :
  nonneg_column Importance demo_metrics /\
  Float.gt0 (col_max Importance demo_metrics) = true /\
  exists r', In r' (add_norms demo_metrics) /\
             raw Importance (base r') = col_max Importance demo_metrics /\
             (norm Importance r' == Fin 1)%float.
Proof.
  assert (Hcol : nonneg_column Importance demo_metrics)
    by (repeat constructor; simpl; lra).
  assert (Hpos : Float.gt0 (col_max Importance demo_metrics) = true)
    by (vm_compute; reflexivity).
  split; [exact Hcol|]. split; [exact Hpos|].
  destruct (normalisation_keeps_order Importance demo_metrics Hcol Hpos) as [Htop _].
  exact Htop.
Defined.



Lemma feature_group_never_unknown_witness :
  Forall (fun r => feature_group r <> "Unknown") (@run Ref.library 0%N demo_table).
Proof.
  apply Forall_forall. intros r Hr.
  destruct (feature_group_never_unknown Ref.library 0%N demo_table r
              ref_sort_permutes Hr) as (_ & Hgroup & _).
  exact Hgroup.
Defined.

Lemma top_rows_outrank_the_rest_witness :
  length (head 1 (@ranked Ref.library 0%N mixed_sample demo_labels)) = 1%nat /\
  forall a b, In a (head 1 (@ranked Ref.library 0%N mixed_sample demo_labels)) ->
              In b (skipn 1 (@ranked Ref.library 0%N mixed_sample demo_labels)) ->
              desc (combined_score a) (combined_score b).
Proof.
  destruct (top_rows_outrank_the_rest Ref.library 0%N mixed_sample demo_labels 1
              ref_sort_sorts) as (Hlen & Hrank & _).
  split; [rewrite Hlen; vm_compute; reflexivity | exact Hrank].
Defined.

Lemma group_counts_add_up_witness :
  list_sum (map num_features (@group_stats Ref.library (@run Ref.library 0%N demo_table)))
  = length (@run Ref.library 0%N demo_table).
Proof.
  destruct (group_counts_add_up Ref.library (@run Ref.library 0%N demo_table)
              ref_sort_permutes) as (_ & _ & _ & Hsum).
  exact Hsum.
Defined.

Lemma group_means_in_unit_witness :
  Forall (fun gr => mean_combined_score gr = NaN \/ Float.in_unit (mean_combined_score gr))
         (@group_stats Ref.library (add_scores (add_norms demo_metrics))).
Proof.
  assert (Hall : Forall (fun r => combined_score r = NaN \/ Float.in_unit (combined_score r))
                        (add_scores (add_norms demo_metrics))).
  { apply Forall_forall. intros r Hr. simpl in Hr.
    destruct Hr as [<-|[<-|[]]]; right; vm_compute; split; discriminate. }
  apply Forall_forall. intros gr Hgr.
  destruct (group_means_in_unit Ref.library (add_scores (add_norms demo_metrics)) gr
              ref_sort_permutes Hall Hgr) as [[_ Hnan]|[_ Hunit]].
  - left. exact Hnan.
  - right. exact Hunit.
Defined.

Lemma final_table_one_row_per_feature_witness :
  Permutation (ranking (@run Ref.library 0%N demo_table))
              (available_features demo_table).
Proof.
  destruct (final_table_one_row_per_feature Ref.library 0%N demo_table
              ref_per_feature ref_sort_permutes) as [Hperm _].
  exact Hperm.
Defined.

Lemma effect_size_short_class_zero_witness :
  @cohens_d_of Ref.library [1] [2; 3] = Fin 0 /\
  @cohens_d_of Ref.library [] [] = Fin 0 /\
  IEEE.cohens_d_of [IEEE.tenth; IEEE.tenth; IEEE.tenth] [IEEE.tenth] = IEEE.zero.
Proof.
  destruct (effect_size_short_class_zero Ref.library) as [Hexact Hdouble].
  split; [|split].
  - apply (Hexact [1] [2; 3]). left. simpl. lia.
  - apply (Hexact [] []). left. simpl. lia.
  - apply (Hdouble [IEEE.tenth; IEEE.tenth; IEEE.tenth] [IEEE.tenth]).
    right. simpl. lia.
Defined.
